(** * A shallow embedding of the compilation driver (CompilerStack), the IR
    generation context and the yul-phaser size metric.

    Sources embedded:
    - libsolidity/CompilerStack.cpp
    - libsolidity/codegen/ir/IRGenerationContext.h
    - tools/yulPhaser/FitnessMetrics.cpp

    Conventions.  A [std::map<string, T>] is a [gmap string T] whose
    iteration order is the ascending key order ([map_iter]).  A pointer into
    [m_sources] is the key of the entry it points to.  C++ exceptions are
    the [Throw] outcome of a small error monad. *)

From Stdlib Require Import String Ascii SpecFloat.
From stdpp Require Import base numbers relations list sorting strings gmap sets.

Local Open Scope string_scope.
Local Open Scope Z_scope.

(** ** Outcomes of a call *)

Record SourceLocation := mkLoc {
  loc_start : Z;
  loc_end : Z;
  loc_sourceName : string
}.

(** The exception classes the three files raise, each with what it carries
    ([errinfo_comment], [errinfo_sourceLocation]).  [CollaboratorError] stands
    for whatever the parser and the resolver throw on their own, and
    [std_out_of_range] is what [std::map::at] throws. *)
Inductive Exception :=
| CompilerError (comment : string)
| ParserError (location : SourceLocation) (comment : string)
| InternalCompilerError (comment : string)
| CollaboratorError (comment : string)
| std_out_of_range.

(** [Undefined] is a null-pointer dereference; [Starved] is the recursion
    budget of [toposort] running out (shown below never to happen). *)
Inductive Outcome (A : Type) :=
| Return (a : A)
| Throw (e : Exception)
| Undefined
| Starved.
Arguments Return {A} a.
Arguments Throw {A} e.
Arguments Undefined {A}.
Arguments Starved {A}.

#[global] Instance Outcome_ret : MRet Outcome := fun A a => Return a.

#[global] Instance Outcome_bind : MBind Outcome := fun A B k x =>
  match x with
  | Return a => k a
  | Throw e => Throw e
  | Undefined => Undefined
  | Starved => Starved
  end.

(** ** Ordered maps: [std::map<std::string, T>] *)

Fixpoint insert_by_key {T} (kv : string * T) (l : list (string * T)) : list (string * T) :=
  match l with
  | [] => [kv]
  | kv' :: l' =>
      if String.leb (fst kv) (fst kv') then kv :: l else kv' :: insert_by_key kv l'
  end.

Definition sort_by_key {T} (l : list (string * T)) : list (string * T) :=
  foldr insert_by_key [] l.

(** The entries of the map in the order a range-for visits them. *)
Definition map_iter {T} (m : gmap string T) : list (string * T) :=
  sort_by_key (map_to_list m).

(** [m.count(k) != 0] *)
Definition count {T} (k : string) (m : gmap string T) : bool :=
  bool_decide (is_Some (m !! k)).

(** ** The syntax tree, as far as the driver looks into it *)

(** Modelled from the spec: the node classes of libsolidity/AST.h, with the
    members the driver reads. *)
Record ContractDefinition := mkContractDefinition {
  cd_id : Z;
  cd_name : string;
  cd_isFullyImplemented : bool
}.

Inductive ASTNode :=
| ImportDirective (identifier : string) (location : SourceLocation)
| ContractDefinitionNode (c : ContractDefinition)
| OtherNode.

(** [SourceUnit::nodes()] *)
Definition SourceUnit := list ASTNode.

(** Modelled from the spec: the Scanner class (libsolidity/Scanner.h) holds
    the raw text of a named source; its scanning position is not modelled,
    so [Scanner_reset], which rewinds it, leaves the record as it is. *)
Record Scanner := mkScanner {
  sc_source : string;
  sc_sourceName : string
}.

Definition Scanner_reset (s : Scanner) : Scanner := s.

(** Modelled from the spec: [CompilerStack::Source] (CompilerStack.h), a
    source unit with its scanner, its parsed tree and its library flag.
    [scanner] is never null for a stored source; [ast] is null until
    [parse] runs. *)
Record Source := mkSource {
  scanner : Scanner;
  ast : option SourceUnit;
  isLibrary : bool
}.

(** ** Bytecode objects and contract records *)

(** Modelled from the spec: [eth::LinkerObject] (libevmasm), a byte
    sequence with its unresolved link references. *)
Record LinkerObject := mkLinkerObject {
  bytecode : list Z;
  linkReferences : gmap N string
}.

Definition emptyObject : LinkerObject := mkLinkerObject [] ∅.

(** The per-contract emitter is an external collaborator; the driver only
    tests the pointer for null. *)
Record Compiler := mkCompiler { compiler_id : Z }.

(** Modelled from the spec: [CompilerStack::Contract] (CompilerStack.h),
    the record kept per contract name; the interface handler, which holds
    no state of its own, is left out. *)
Record Contract := mkContract {
  contract_ptr : option ContractDefinition;
  compiler : option Compiler;
  object_ : LinkerObject;
  runtimeObject_ : LinkerObject;
  cloneObject_ : LinkerObject;
  interface_ : option string;
  solidityInterface_ : option string;
  userDocumentation : option string;
  devDocumentation : option string
}.

(** [Contract::Contract()] : every member default-constructed. *)
Definition newContract : Contract :=
  mkContract None None emptyObject emptyObject emptyObject None None None None.

(** Modelled from the spec: the enumeration [DocumentationType]; the last
    constructor stands for any other value cast to the type. *)
Inductive DocumentationType :=
| NatspecUser | NatspecDev | ABIInterface | ABISolidityInterface
| IllegalDocumentationType.

(** ** The driver's state *)

(** Modelled from the spec: the data members of [CompilerStack]
    (CompilerStack.h) that the functions below read or write. *)
Record CompilerStack := mkStack {
  m_parseSuccessful : bool;
  m_sources : gmap string Source;
  m_sourceOrder : list string;
  m_contracts : gmap string Contract
}.

Definition dq : string := String (ascii_of_nat 34) EmptyString.

Definition StandardSources : list (string * string) :=
  [ ("coin", "import " +:+ dq +:+ "CoinReg" +:+ dq +:+ ";import " +:+ dq +:+ "Config" +:+ dq +:+ ";import " +:+ dq +:+ "configUser" +:+ dq +:+ ";contract coin is configUser{function coin(bytes3 name, uint denom) {CoinReg(Config(configAddr()).lookup(3)).register(name, denom);}}");
    ("Coin", "contract Coin{function isApprovedFor(address _target,address _proxy)constant returns(bool _r){}function isApproved(address _proxy)constant returns(bool _r){}function sendCoinFrom(address _from,uint256 _val,address _to){}function coinBalanceOf(address _a)constant returns(uint256 _r){}function sendCoin(uint256 _val,address _to){}function coinBalance()constant returns(uint256 _r){}function approve(address _a){}}");
    ("CoinReg", "contract CoinReg{function count()constant returns(uint256 r){}function info(uint256 i)constant returns(address addr,bytes3 name,uint256 denom){}function register(bytes3 name,uint256 denom){}function unregister(){}}");
    ("configUser", "contract configUser{function configAddr()constant returns(address a){ return 0xc6d9d2cd449a754c494264e1809c50e34d64562b;}}");
    ("Config", "contract Config{function lookup(uint256 service)constant returns(address a){}function kill(){}function unregister(uint256 id){}function register(uint256 id,address service){}}");
    ("mortal", "import " +:+ dq +:+ "owned" +:+ dq +:+ ";contract mortal is owned {function kill() { if (msg.sender == owner) suicide(owner); }}");
    ("named", "import " +:+ dq +:+ "Config" +:+ dq +:+ ";import " +:+ dq +:+ "NameReg" +:+ dq +:+ ";import " +:+ dq +:+ "configUser" +:+ dq +:+ ";contract named is configUser {function named(bytes32 name) {NameReg(Config(configAddr()).lookup(1)).register(name);}}");
    ("NameReg", "contract NameReg{function register(bytes32 name){}function addressOf(bytes32 name)constant returns(address addr){}function unregister(){}function nameOf(address addr)constant returns(bytes32 name){}}");
    ("owned", "contract owned{function owned(){owner = msg.sender;}modifier onlyowner(){if(msg.sender==owner)_}address owner;}");
    ("service", "import " +:+ dq +:+ "Config" +:+ dq +:+ ";import " +:+ dq +:+ "configUser" +:+ dq +:+ ";contract service is configUser{function service(uint _n){Config(configAddr()).register(_n, this);}}");
    ("std", "import " +:+ dq +:+ "owned" +:+ dq +:+ ";import " +:+ dq +:+ "mortal" +:+ dq +:+ ";import " +:+ dq +:+ "Config" +:+ dq +:+ ";import " +:+ dq +:+ "configUser" +:+ dq +:+ ";import " +:+ dq +:+ "NameReg" +:+ dq +:+ ";import " +:+ dq +:+ "named" +:+ dq +:+ ";") ].

(** [StandardSources.count(name)] *)
Definition isStandardSource (name : string) : bool :=
  bool_decide (name ∈ StandardSources.*1).

(** [m_sources[_name].scanner = ...; m_sources[_name].isLibrary = ...]:
    [operator[]] default-constructs a missing entry (null [ast]) and keeps
    the [ast] of an existing one. *)
Definition store_source (name content : string) (isLib : bool)
    (srcs : gmap string Source) : gmap string Source :=
  let old_ast := match srcs !! name with Some s => ast s | None => None end in
  <[name := mkSource (mkScanner content name) old_ast isLib]> srcs.

(** The loop of [reset(true)] binds each map entry by value
    ([auto sourcePair]), so [Source::reset] works on a copy: the entries of
    the map keep their pointers, and at most the Scanner they share with
    the copy is rewound. *)
Definition reset_sources (srcs : gmap string Source) : gmap string Source :=
  (fun s => mkSource (Scanner_reset (scanner s)) (ast s) (isLibrary s)) <$> srcs.

Definition addSource_raw (srcs : gmap string Source) (name content : string)
    (isLib : bool) : gmap string Source :=
  store_source name content isLib (reset_sources srcs).

Definition reset (keepSources addStandardSources : bool) (st : CompilerStack) : CompilerStack :=
  let srcs :=
    if keepSources then reset_sources (m_sources st)
    else if addStandardSources then
      (* addSources(StandardSources, true): one addSource per entry; each
         one runs reset(true) again, which changes nothing further here. *)
      foldl (fun m kv => addSource_raw m kv.1 kv.2 true) ∅ StandardSources
    else ∅ in
  mkStack false srcs [] ∅.

(** [addSource] returns the new state and [existed]. *)
Definition addSource (name content : string) (isLib : bool) (st : CompilerStack)
    : CompilerStack * bool :=
  let existed := count name (m_sources st) in
  let st1 := reset true false st in
  (mkStack (m_parseSuccessful st1)
           (store_source name content isLib (m_sources st1))
           (m_sourceOrder st1) (m_contracts st1),
   existed).

Definition addSources (srcs : list (string * string)) (isLib : bool)
    (st : CompilerStack) : CompilerStack :=
  foldl (fun s kv => (addSource kv.1 kv.2 isLib s).1) st srcs.

(** [CompilerStack::CompilerStack(bool _addStandardSources)] *)
Definition newCompilerStack (addStandardSources : bool) : CompilerStack :=
  let st := mkStack false ∅ [] ∅ in
  if addStandardSources then addSources StandardSources true st else st.

(** Modelled from the spec: the default arguments of [reset], which
    CompilerStack.h declares.  [setSource] clears all sources except the
    built-in standard sources, so [reset()] is [reset(false, true)]. *)
Definition setSource (sourceCode : string) (st : CompilerStack) : CompilerStack :=
  (addSource EmptyString sourceCode false (reset false true st)).1.

(** ** Import resolution: [CompilerStack::resolveImports] *)

(** [sourcesSeen] and [sourceOrder], the two locals the lambda captures. *)
Definition DfsState : Type := gset string * list string.

(** The loop over [_source->ast->nodes()]; [rec] is the recursive call
    [toposort(&m_sources[id])]. *)
Fixpoint visit_imports (rec : string -> Source -> DfsState -> Outcome DfsState)
    (srcs : gmap string Source) (nodes : list ASTNode) (st : DfsState)
    : Outcome DfsState :=
  match nodes with
  | [] => Return st
  | ImportDirective id loc :: rest =>
      match srcs !! id with
      | None => Throw (ParserError loc "Source not found.")
      | Some s => st' ← rec id s st; visit_imports rec srcs rest st'
      end
  | _ :: rest => visit_imports rec srcs rest st
  end.

(** The lambda [toposort].  The pointer [_source] is the pair of the key
    and the entry it points to; [fuel] bounds the recursion depth. *)
Fixpoint toposort (fuel : nat) (srcs : gmap string Source)
    (name : string) (src : Source) (st : DfsState) : Outcome DfsState :=
  match fuel with
  | O => Starved
  | S fuel' =>
      if bool_decide (name ∈ st.1) then Return st
      else
        match ast src with
        | None => Undefined
        | Some nodes =>
            st' ← visit_imports (toposort fuel' srcs) srcs nodes ({[name]} ∪ st.1, st.2);
            Return (st'.1, (st'.2 ++ [name])%list)
        end
  end.

(** The final loop: every source that is not a library is a root. *)
Fixpoint visit_roots (fuel : nat) (srcs : gmap string Source)
    (l : list (string * Source)) (st : DfsState) : Outcome DfsState :=
  match l with
  | [] => Return st
  | (name, src) :: rest =>
      if isLibrary src then visit_roots fuel srcs rest st
      else st' ← toposort fuel srcs name src st; visit_roots fuel srcs rest st'
  end.

(** The order [resolveImports] computes; it is swapped into
    [m_sourceOrder] only when no exception was thrown. *)
Definition sourceOrder_of (srcs : gmap string Source) : Outcome (list string) :=
  st ← visit_roots (S (size srcs)) srcs (map_iter srcs) (∅, []);
  Return st.2.

Definition resolveImports (st : CompilerStack) : Outcome CompilerStack :=
  order ← sourceOrder_of (m_sources st);
  Return (mkStack (m_parseSuccessful st) (m_sources st) order (m_contracts st)).

(** ** Contract lookup and the queries built on it *)

(** The inner loop of the empty-name fallback: every ContractDefinition
    node overwrites [contractName]. *)
Fixpoint scan_contracts (nodes : list ASTNode) (contractName : string) : string :=
  match nodes with
  | [] => contractName
  | ContractDefinitionNode c :: rest => scan_contracts rest (cd_name c)
  | _ :: rest => scan_contracts rest contractName
  end.

(** The outer loop over [m_sources], skipping the names of StandardSources. *)
Fixpoint scan_sources (l : list (string * Source)) (contractName : string)
    : Outcome string :=
  match l with
  | [] => Return contractName
  | (name, src) :: rest =>
      if isStandardSource name then scan_sources rest contractName
      else
        match ast src with
        | None => Undefined
        | Some nodes => scan_sources rest (scan_contracts nodes contractName)
        end
  end.

(** [CompilerStack::contract], returning the map entry [it] found: its key
    and the record. *)
Definition contract_entry (_contractName : string) (st : CompilerStack)
    : Outcome (string * Contract) :=
  if bool_decide (m_contracts st = ∅) then
    Throw (CompilerError "No compiled contracts found.")
  else
    contractName ←
      (if bool_decide (_contractName = EmptyString)
       then scan_sources (map_iter (m_sources st)) _contractName
       else Return _contractName);
    match m_contracts st !! contractName with
    | None => Throw (CompilerError ("Contract " +:+ _contractName +:+ " not found."))
    | Some c => Return (contractName, c)
    end.

Definition contract (_contractName : string) (st : CompilerStack) : Outcome Contract :=
  it ← contract_entry _contractName st; Return it.2.

Definition parsingNotSuccessful : Exception :=
  CompilerError "Parsing was not successful.".

Definition contractNames (st : CompilerStack) : Outcome (list string) :=
  if negb (m_parseSuccessful st) then Throw parsingNotSuccessful
  else Return (map_iter (m_contracts st)).*1.

Definition object (_contractName : string) (st : CompilerStack) : Outcome LinkerObject :=
  c ← contract _contractName st; Return (object_ c).

Definition runtimeObject (_contractName : string) (st : CompilerStack) : Outcome LinkerObject :=
  c ← contract _contractName st; Return (runtimeObject_ c).

Definition cloneObject (_contractName : string) (st : CompilerStack) : Outcome LinkerObject :=
  c ← contract _contractName st; Return (cloneObject_ c).

(** [*contract(_contractName).contract] : the pointer is null in a record
    that [parse] has not filled. *)
Definition contractDefinition (_contractName : string) (st : CompilerStack)
    : Outcome ContractDefinition :=
  c ← contract _contractName st;
  match contract_ptr c with
  | None => Undefined
  | Some d => Return d
  end.

Definition defaultContractName (st : CompilerStack) : Outcome string :=
  d ← contractDefinition EmptyString st; Return (cd_name d).

(** [CompilerStack::source] *)
Definition source (_sourceName : string) (st : CompilerStack) : Outcome Source :=
  match m_sources st !! _sourceName with
  | None => Throw (CompilerError "Given source file not found.")
  | Some s => Return s
  end.

(** The slot of a contract record that caches one documentation type. *)
Definition doc_slot (type : DocumentationType) (c : Contract) : Outcome (option string) :=
  match type with
  | NatspecUser => Return (userDocumentation c)
  | NatspecDev => Return (devDocumentation c)
  | ABIInterface => Return (interface_ c)
  | ABISolidityInterface => Return (solidityInterface_ c)
  | IllegalDocumentationType =>
      Throw (InternalCompilerError "Illegal documentation type.")
  end.

Definition set_doc_slot (type : DocumentationType) (d : string) (c : Contract) : Contract :=
  mkContract (contract_ptr c) (compiler c) (object_ c) (runtimeObject_ c)
    (cloneObject_ c)
    (match type with ABIInterface => Some d | _ => interface_ c end)
    (match type with ABISolidityInterface => Some d | _ => solidityInterface_ c end)
    (match type with NatspecUser => Some d | _ => userDocumentation c end)
    (match type with NatspecDev => Some d | _ => devDocumentation c end).

(** What an [Outcome] other than [Return] becomes at another type. *)
Definition rethrow {A B} (o : Outcome A) : Outcome B :=
  match o with
  | Throw e => Throw e
  | Starved => Starved
  | _ => Undefined
  end.

(** [m_contracts[contract->name()].contract = contract] *)
Definition set_contract_ptr (c : ContractDefinition) (cs : gmap string Contract)
    : gmap string Contract :=
  let r := default newContract (cs !! cd_name c) in
  <[cd_name c := mkContract (Some c) (compiler r) (object_ r) (runtimeObject_ r)
                   (cloneObject_ r) (interface_ r) (solidityInterface_ r)
                   (userDocumentation r) (devDocumentation r)]> cs.

(** [source->ast->nodes()] for every [source] of [m_sourceOrder], in order;
    [None] when a pointer on the way is null. *)
Fixpoint nodes_in_order (srcs : gmap string Source) (order : list string)
    : option (list ASTNode) :=
  match order with
  | [] => Some []
  | name :: rest =>
      s ← srcs !! name;
      nodes ← ast s;
      more ← nodes_in_order srcs rest;
      Some (nodes ++ more)%list
  end.

Fixpoint units_in_order (srcs : gmap string Source) (order : list string)
    : option (list SourceUnit) :=
  match order with
  | [] => Some []
  | name :: rest =>
      s ← srcs !! name;
      nodes ← ast s;
      more ← units_in_order srcs rest;
      Some (nodes :: more)
  end.

Section Driver.

(** The external collaborators.  The resolver and the global context it
    works on are one abstract state that every call may change or abort. *)
Variable Resolver : Type.
Variable Parser_parse : Scanner -> Outcome SourceUnit.
Variable newResolver : Resolver.
Variable registerDeclarations : Resolver -> SourceUnit -> Outcome Resolver.
(** [setCurrentContract], the two [updateDeclaration] calls and
    [resolveNamesAndTypes] of the first contract loop. *)
Variable resolveNamesAndTypes : Resolver -> ContractDefinition -> Outcome Resolver.
(** [setCurrentContract], [updateDeclaration], [checkTypeRequirements] and
    the two documentation calls of the second contract loop. *)
Variable checkTypeRequirements : Resolver -> ContractDefinition -> Outcome Resolver.
(** [InterfaceHandler::documentation] *)
Variable documentation : ContractDefinition -> DocumentationType -> Outcome string.
(** [dev::sha3], with [h256] read as a number below 2^256. *)
Variable sha3 : list Z -> Z.

(** The first loop of [parse]: the entries are updated in place, so the
    sources before a failing one keep their new tree. *)
Fixpoint parse_sources (l : list (string * Source)) (srcs : gmap string Source)
    : gmap string Source * Outcome unit :=
  match l with
  | [] => (srcs, Return tt)
  | (name, src) :: rest =>
      let sc := Scanner_reset (scanner src) in
      match Parser_parse sc with
      | Return u => parse_sources rest (<[name := mkSource sc (Some u) (isLibrary src)]> srcs)
      | o => (srcs, rethrow o)
      end
  end.

Fixpoint register_units (units : list SourceUnit) (r : Resolver) : Outcome Resolver :=
  match units with
  | [] => Return r
  | u :: rest => r' ← registerDeclarations r u; register_units rest r'
  end.

(** One of the two loops over the contracts of [m_sourceOrder]. *)
Fixpoint for_contracts (step : Resolver -> ContractDefinition -> Outcome Resolver)
    (nodes : list ASTNode) (r : Resolver) (cs : gmap string Contract)
    : gmap string Contract * Outcome Resolver :=
  match nodes with
  | [] => (cs, Return r)
  | ContractDefinitionNode c :: rest =>
      match step r c with
      | Return r' => for_contracts step rest r' (set_contract_ptr c cs)
      | o => (cs, rethrow o)
      end
  | _ :: rest => for_contracts step rest r cs
  end.

(** [CompilerStack::parse()]: the state the driver is left in, and how the
    call ended. *)
Definition parse (st : CompilerStack) : CompilerStack * Outcome unit :=
  let (srcs, o1) := parse_sources (map_iter (m_sources st)) (m_sources st) in
  let st1 := mkStack (m_parseSuccessful st) srcs (m_sourceOrder st) (m_contracts st) in
  match o1 with
  | Return _ =>
      match resolveImports st1 with
      | Return st2 =>
          match units_in_order srcs (m_sourceOrder st2), nodes_in_order srcs (m_sourceOrder st2) with
          | Some units, Some nodes =>
              match register_units units newResolver with
              | Return r1 =>
                  let (cs1, o2) := for_contracts resolveNamesAndTypes nodes r1 (m_contracts st2) in
                  let st3 := mkStack (m_parseSuccessful st2) srcs (m_sourceOrder st2) cs1 in
                  match o2 with
                  | Return r2 =>
                      let (cs2, o3) := for_contracts checkTypeRequirements nodes r2 cs1 in
                      let st4 := mkStack (m_parseSuccessful st2) srcs (m_sourceOrder st2) cs2 in
                      match o3 with
                      | Return _ => (mkStack true srcs (m_sourceOrder st2) cs2, Return tt)
                      | o => (st4, rethrow o)
                      end
                  | o => (st3, rethrow o)
                  end
              | o => (st2, rethrow o)
              end
          | _, _ => (st2, Undefined)
          end
      | o => (st1, rethrow o)
      end
  | o => (st1, rethrow o)
  end.

(** [CompilerStack::metadata]: the string, and the state with the cache
    slot filled. *)
Definition metadata (_contractName : string) (_type : DocumentationType)
    (st : CompilerStack) : Outcome (string * CompilerStack) :=
  if negb (m_parseSuccessful st) then Throw parsingNotSuccessful
  else
    it ← contract_entry _contractName st;
    doc ← doc_slot _type it.2;
    match doc with
    | Some d => Return (d, st)
    | None =>
        match contract_ptr it.2 with
        | None => Undefined
        | Some cd =>
            d ← documentation cd _type;
            Return (d, mkStack (m_parseSuccessful st) (m_sources st) (m_sourceOrder st)
                         (<[it.1 := set_doc_slot _type d it.2]> (m_contracts st)))
        end
    end.

Definition interface (_contractName : string) (st : CompilerStack) :=
  metadata _contractName ABIInterface st.

Definition solidityInterface (_contractName : string) (st : CompilerStack) :=
  metadata _contractName ABISolidityInterface st.

(** [dev::h256()] *)
Definition h256_zero : Z := 0.

Definition contractCodeHash (_contractName : string) (st : CompilerStack) : Outcome Z :=
  obj ← runtimeObject _contractName st;
  if bool_decide (bytecode obj = []) || negb (bool_decide (linkReferences obj = ∅))
  then Return h256_zero
  else Return (sha3 (bytecode obj)).

End Driver.

(** ** libsolidity/codegen/ir/IRGenerationContext.h *)

Module IRGen.

(** A [FunctionDefinition] as far as the comparator looks into it: [id()]. *)
Record FunctionDefinition := mkFunctionDefinition { id : Z }.

(** [AscendingFunctionIDCompare::operator()]; a null pointer is [None]. *)
Definition AscendingFunctionIDCompare (_f1 _f2 : option FunctionDefinition) : bool :=
  match _f1, _f2 with
  | Some f1, Some f2 => id f1 <? id f2
  | _, _ => bool_decide (_f1 = None)
  end.

(** A [VariableDeclaration const*] is the address it holds. *)
Definition VariableDeclarationPtr := N.

(** The members the inline functions below read or write. *)
Record IRGenerationContext := mkContext {
  m_stateVariables : gmap N (Z * Z);
  m_inlineAssemblySeen : bool
}.

(** Modelled from the spec: the macro [solAssert] (liblangutil/Exceptions.h);
    a failed assertion is an InternalCompilerError, the fatal internal
    error of the error taxonomy. *)
Definition solAssert (condition : bool) (description : string) : Outcome unit :=
  if condition then Return tt else Throw (InternalCompilerError description).

Definition isStateVariable (ctx : IRGenerationContext) (_varDecl : VariableDeclarationPtr) : bool :=
  bool_decide (is_Some (m_stateVariables ctx !! _varDecl)).

Definition storageLocationOfStateVariable (ctx : IRGenerationContext)
    (_varDecl : VariableDeclarationPtr) : Outcome (Z * Z) :=
  _ ← solAssert (isStateVariable ctx _varDecl) EmptyString;
  match m_stateVariables ctx !! _varDecl with
  | Some loc => Return loc
  | None => Throw std_out_of_range
  end.

(** Modelled from the spec: [addStateVariable] (IRGenerationContext.cpp)
    records the slot and the byte offset of a state variable. *)
Definition addStateVariable (ctx : IRGenerationContext) (_varDecl : VariableDeclarationPtr)
    (_storageOffset _byteOffset : Z) : IRGenerationContext :=
  mkContext (<[_varDecl := (_storageOffset, _byteOffset)]> (m_stateVariables ctx))
            (m_inlineAssemblySeen ctx).

Definition inlineAssemblySeen (ctx : IRGenerationContext) : bool :=
  m_inlineAssemblySeen ctx.

Definition setInlineAssemblySeen (ctx : IRGenerationContext) : IRGenerationContext :=
  mkContext (m_stateVariables ctx) true.

End IRGen.

(** ** tools/yulPhaser/FitnessMetrics.cpp *)

Module Phaser.

(** [double]: IEEE 754 binary64, rounding to nearest, ties to even. *)
Definition double := spec_float.
Definition prec : Z := 53.
Definition emax : Z := 1024.

(** Conversion of an integer to [double]. *)
Definition of_integer (n : Z) : double := binary_normalize prec emax n 0 false.

Definition fdiv (x y : double) : double := SFdiv prec emax x y.
Definition fmul (x y : double) : double := SFmul prec emax x y.

(** [pow(10, p)], correctly rounded (exact up to 10^22). *)
Definition pow10 (p : N) : double := of_integer (10 ^ Z.of_N p).

(** [std::round]: the nearest integral value, halfway cases away from zero. *)
Definition round (x : double) : double :=
  match x with
  | S754_finite s m e =>
      if 0 <=? e then x
      else
        let d := 2 ^ (- e) in
        let q := Z.pos m / d in
        let r := Z.pos m mod d in
        let n := if d <=? 2 * r then q + 1 else q in
        binary_normalize prec emax (if s then - n else n) 0 s
  | _ => x
  end.

Definition size_t_max : N := 2 ^ 64 - 1.

(** [static_cast<size_t>] of a [double]: the fraction is dropped; a value
    that does not fit has no defined result. *)
Definition to_size_t (x : double) : option N :=
  match x with
  | S754_zero _ => Some 0%N
  | S754_finite s m e =>
      let t := if 0 <=? e then Z.pos m * 2 ^ e else Z.pos m / 2 ^ (- e) in
      if s then (if t =? 0 then Some 0%N else None)
      else if t <=? Z.of_N size_t_max then Some (Z.to_N t) else None
  | _ => None
  end.

(** What a run of [evaluate] does that the caller cares about. *)
Inductive Event (Chromosome : Type) :=
| Optimised (c : Chromosome)
| Divided (numerator denominator : N).
Arguments Optimised {Chromosome} c.
Arguments Divided {Chromosome} numerator denominator.

Section Metrics.

(** [Program] and [Chromosome] are classes of other files. *)
Variable Program Chromosome : Type.
(** [Chromosome("")] *)
Variable emptyChromosome : Chromosome.
(** [p.optimise(c.optimisationSteps())], as a function of the program. *)
Variable optimise : Chromosome -> Program -> Program.
Variable codeSize : Program -> N.

Record ProgramBasedMetric := mkMetric {
  m_program : Program;
  m_repetitionCount : nat
}.

(** [RelativeProgramSize] adds the precision to its base class. *)
Record RelativeProgramSize := mkRelative {
  base : ProgramBasedMetric;
  m_fixedPointPrecision : N
}.

(** A computation that logs its events; [None] once a conversion has no
    defined result. *)
Definition Traced (A : Type) : Type := list (Event Chromosome) * option A.

Definition t_ret {A} (a : A) : Traced A := ([], Some a).

Definition t_bind {A B} (x : Traced A) (k : A -> Traced B) : Traced B :=
  match x with
  | (log, Some a) => let (log', b) := k a in ((log ++ log')%list, b)
  | (log, None) => (log, None)
  end.

Definition optimisedProgram_pure (metric : ProgramBasedMetric) (_chromosome : Chromosome)
    : Program :=
  Nat.iter (m_repetitionCount metric) (optimise _chromosome) (m_program metric).

(** [ProgramBasedMetric::optimisedProgram] *)
Definition optimisedProgram (metric : ProgramBasedMetric) (_chromosome : Chromosome)
    : Traced Program :=
  ([Optimised _chromosome], Some (optimisedProgram_pure metric _chromosome)).

(** [ProgramSize::evaluate] *)
Definition ProgramSize_evaluate (metric : ProgramBasedMetric) (_chromosome : Chromosome)
    : Traced N :=
  t_bind (optimisedProgram metric _chromosome) (fun p => t_ret (codeSize p)).

(** [static_cast<double>(x) / y] : the divisor is converted as well. *)
Definition divide (x y : N) : Traced double :=
  ([Divided x y], Some (fdiv (of_integer (Z.of_N x)) (of_integer (Z.of_N y)))).

Definition cast_size_t (x : double) : Traced N := ([], to_size_t x).

(** [RelativeProgramSize::evaluate] *)
Definition RelativeProgramSize_evaluate (this : RelativeProgramSize)
    (_chromosome : Chromosome) : Traced N :=
  let metric := base this in
  t_bind (cast_size_t (pow10 (m_fixedPointPrecision this))) (fun scalingFactor =>
  t_bind (optimisedProgram metric emptyChromosome) (fun p0 =>
  let unoptimisedSize := codeSize p0 in
  if (unoptimisedSize =? 0)%N then t_ret scalingFactor
  else
    t_bind (optimisedProgram metric _chromosome) (fun p1 =>
    let optimisedSize := codeSize p1 in
    t_bind (divide optimisedSize unoptimisedSize) (fun ratio =>
    cast_size_t (round (fmul ratio (of_integer (Z.of_N scalingFactor)))))))).

End Metrics.

End Phaser.

(** ** CompilerStack.cpp: compilation and the accessors of its results *)

(** Modelled from the spec: [eth::AssemblyItem] (libevmasm), of which the
    driver reads the type and the data. *)
Inductive AssemblyItemType :=
| UndefinedItem
| Tag
| OtherItem (code : nat).

Record AssemblyItem := mkItem {
  item_type : AssemblyItemType;
  item_data : Z
}.

#[global] Instance AssemblyItemType_eq_dec : EqDecision AssemblyItemType.
Proof. solve_decision. Defined.

#[global] Instance ContractDefinition_eq_dec : EqDecision ContractDefinition.
Proof. solve_decision. Defined.

(** [map<ContractDefinition const*, eth::Assembly const*>]: the key is the
    pointer a record holds (possibly null), the value the assembly of a
    compiler, named by the compiler it belongs to. *)
Definition CompiledContracts : Type := list (option ContractDefinition * Compiler).

(** [compiledContracts[key] = value] *)
Definition compiled_set (key : option ContractDefinition) (value : Compiler)
    (m : CompiledContracts) : CompiledContracts :=
  (key, value) :: filter (λ kv, kv.1 ≠ key) m.

(** The loop of [functionEntryPoint]: the first index from [i] on whose
    item is a tag with the given data, and 0 when there is none. *)
Fixpoint find_tag (items : list AssemblyItem) (data : Z) (i : nat) : nat :=
  match items with
  | [] => 0%nat
  | item :: rest =>
      if bool_decide (item_type item = Tag) && bool_decide (item_data item = data)
      then i else find_tag rest data (S i)
  end.

(** [setSource] for either default of the parameter [_addStandardSources]
    of [reset], which CompilerStack.h declares; [setSource] above is the
    instance at true. *)
Definition setSource_with (addStandardSources : bool) (_sourceCode : string)
    (st : CompilerStack) : CompilerStack :=
  (addSource EmptyString _sourceCode false (reset false addStandardSources st)).1.

Section Compilation.

(** The collaborators of [parse], as before. *)
Variable Resolver : Type.
Variable Parser_parse : Scanner → Outcome SourceUnit.
Variable newResolver : Resolver.
Variable registerDeclarations : Resolver → SourceUnit → Outcome Resolver.
Variable resolveNamesAndTypes : Resolver → ContractDefinition → Outcome Resolver.
Variable checkTypeRequirements : Resolver → ContractDefinition → Outcome Resolver.

(** The per-contract emitter: a fresh [Compiler(_optimize, _runs)] after
    [compileContract], respectively [compileClone], and what it hands out. *)
Variable compileContract :
  bool → N → ContractDefinition → CompiledContracts → Outcome Compiler.
Variable compileClone :
  bool → N → ContractDefinition → CompiledContracts → Outcome Compiler.
Variable assembledObject : Compiler → LinkerObject.
Variable compiler_runtimeObject : Compiler → LinkerObject.
Variable compiler_assemblyItems : Compiler → list AssemblyItem.
Variable compiler_runtimeAssemblyItems : Compiler → list AssemblyItem.
(** [Compiler::functionEntryLabel], for whatever describes a function. *)
Variable FunctionDefinition : Type.
Variable functionEntryLabel : Compiler → FunctionDefinition → AssemblyItem.
(** The defaults of the parameters [_runs] of [compile] and
    [_addStandardSources] of [reset] (CompilerStack.h). *)
Variable default_runs : N.
Variable default_addStandardSources : bool.

(** [CompilerStack::parse(string const&)] *)
Definition parse_source (_sourceCode : string) (st : CompilerStack)
    : CompilerStack * Outcome unit :=
  parse Resolver Parser_parse newResolver registerDeclarations
    resolveNamesAndTypes checkTypeRequirements
    (setSource_with default_addStandardSources _sourceCode st).

(** The body of the loops of [compile] over the nodes of the listed
    sources; [compiled] is the local [compiledContracts]. *)
Fixpoint compile_contracts (_optimize : bool) (_runs : N) (nodes : list ASTNode)
    (compiled : CompiledContracts) (cs : gmap string Contract)
    : gmap string Contract * Outcome unit :=
  match nodes with
  | [] => (cs, Return tt)
  | ContractDefinitionNode c :: rest =>
      if negb (cd_isFullyImplemented c) then
        compile_contracts _optimize _runs rest compiled cs
      else
        match compileContract _optimize _runs c compiled with
        | Return compiler_ =>
            match cs !! cd_name c with
            | None => (cs, Throw std_out_of_range)
            | Some r =>
                let r1 := mkContract (contract_ptr r) (Some compiler_)
                            (assembledObject compiler_)
                            (compiler_runtimeObject compiler_) (cloneObject_ r)
                            (interface_ r) (solidityInterface_ r)
                            (userDocumentation r) (devDocumentation r) in
                let compiled1 := compiled_set (contract_ptr r) compiler_ compiled in
                match compileClone _optimize _runs c compiled1 with
                | Return cloneCompiler =>
                    let r2 := mkContract (contract_ptr r1) (compiler r1) (object_ r1)
                                (runtimeObject_ r1) (assembledObject cloneCompiler)
                                (interface_ r1) (solidityInterface_ r1)
                                (userDocumentation r1) (devDocumentation r1) in
                    compile_contracts _optimize _runs rest compiled1
                      (<[cd_name c := r2]> cs)
                | o => (<[cd_name c := r1]> cs, rethrow o)
                end
            end
        | o => (cs, rethrow o)
        end
  | _ :: rest => compile_contracts _optimize _runs rest compiled cs
  end.

(** [CompilerStack::compile(bool, unsigned)]: the state the driver is left
    in, and how the call ended. *)
Definition compile (_optimize : bool) (_runs : N) (st : CompilerStack)
    : CompilerStack * Outcome unit :=
  let (st1, o1) :=
    if m_parseSuccessful st then (st, Return tt)
    else parse Resolver Parser_parse newResolver registerDeclarations
           resolveNamesAndTypes checkTypeRequirements st in
  match o1 with
  | Return _ =>
      match nodes_in_order (m_sources st1) (m_sourceOrder st1) with
      | Some nodes =>
          let (cs, o2) := compile_contracts _optimize _runs nodes [] (m_contracts st1) in
          (mkStack (m_parseSuccessful st1) (m_sources st1) (m_sourceOrder st1) cs, o2)
      | None => (st1, Undefined)
      end
  | o => (st1, rethrow o)
  end.

(** [CompilerStack::compile(string const&, bool)] *)
Definition compile_source (_sourceCode : string) (_optimize : bool)
    (st : CompilerStack) : CompilerStack * Outcome LinkerObject :=
  let (st1, o1) := parse_source _sourceCode st in
  match o1 with
  | Return _ =>
      let (st2, o2) := compile _optimize default_runs st1 in
      match o2 with
      | Return _ => (st2, object EmptyString st2)
      | o => (st2, rethrow o)
      end
  | o => (st1, rethrow o)
  end.

(** [assemblyItems] and [runtimeAssemblyItems]: a null pointer is [None]. *)
Definition assemblyItems (_contractName : string) (st : CompilerStack)
    : Outcome (option (list AssemblyItem)) :=
  currentContract ← contract _contractName st;
  match compiler currentContract with
  | Some _ =>
      again ← contract _contractName st;
      match compiler again with
      | Some c => Return (Some (compiler_assemblyItems c))
      | None => Undefined
      end
  | None => Return None
  end.

Definition runtimeAssemblyItems (_contractName : string) (st : CompilerStack)
    : Outcome (option (list AssemblyItem)) :=
  currentContract ← contract _contractName st;
  match compiler currentContract with
  | Some _ =>
      again ← contract _contractName st;
      match compiler again with
      | Some c => Return (Some (compiler_runtimeAssemblyItems c))
      | None => Undefined
      end
  | None => Return None
  end.

(** [CompilerStack::functionEntryPoint] *)
Definition functionEntryPoint (_contractName : string) (_function : FunctionDefinition)
    (st : CompilerStack) : Outcome nat :=
  c ← contract _contractName st;
  match compiler c with
  | None => Return 0%nat
  | Some compiler_ =>
      let tag := functionEntryLabel compiler_ _function in
      if bool_decide (item_type tag = UndefinedItem) then Return 0%nat
      else Return (find_tag (compiler_runtimeAssemblyItems compiler_) (item_data tag) 0)
  end.

End Compilation.

(** * Properties *)

(** ** The import graph of a source map *)

(** Source [A] holds an import directive, located at [loc], that names [id]. *)
Definition has_import (srcs : gmap string Source) (A id : string)
    (loc : SourceLocation) : Prop :=
  ∃ s nodes, srcs !! A = Some s ∧ ast s = Some nodes ∧ ImportDirective id loc ∈ nodes.

(** The import edge A → B: [A] imports [B], and [B] is a source of the map. *)
Definition imports (srcs : gmap string Source) (A B : string) : Prop :=
  is_Some (srcs !! B) ∧ ∃ loc, has_import srcs A B loc.

Definition is_root (srcs : gmap string Source) (r : string) : Prop :=
  ∃ s, srcs !! r = Some s ∧ isLibrary s = false.

Definition all_parsed (srcs : gmap string Source) : Prop :=
  ∀ n s, srcs !! n = Some s → is_Some (ast s).

Definition imports_resolved (srcs : gmap string Source) : Prop :=
  ∀ A id loc, has_import srcs A id loc → is_Some (srcs !! id).

(** [y] stands before [x] in the list. *)
Definition precedes (y x : string) (l : list string) : Prop :=
  ∃ i j, l !! i = Some y ∧ l !! j = Some x ∧ (i < j)%nat.

(** The exception names an import directive, met on the way from [name],
    whose target is not in the map. *)
Definition missing_import_from (srcs : gmap string Source) (name : string)
    (e : Exception) : Prop :=
  ∃ A id loc, rtc (imports srcs) name A ∧ has_import srcs A id loc ∧
    srcs !! id = None ∧ e = ParserError loc "Source not found.".

(** Every edge out of a listed source points backwards in the list, unless
    it closes a cycle. *)
Definition ordered (srcs : gmap string Source) (order : list string) : Prop :=
  ∀ x y, x ∈ order → imports srcs x y →
    precedes y x order ∨ tc (imports srcs) y x.

(** What holds of the two locals of [resolveImports] between two calls. *)
Record dfs_inv (srcs : gmap string Source) (st : DfsState) : Prop := mkInv {
  inv_sub : ∀ x, x ∈ st.2 → x ∈ st.1;
  inv_dom : ∀ x, x ∈ st.1 → is_Some (srcs !! x);
  inv_nodup : NoDup st.2;
  inv_ordered : ordered srcs st.2;
  inv_closed : ∀ x id loc, x ∈ st.2 → has_import srcs x id loc →
    is_Some (srcs !! id) ∧ id ∈ st.1
}.

(** [st'] extends [st] by sources that were new. *)
Definition extends (st st' : DfsState) : Prop :=
  ∃ new, st'.2 = (st.2 ++ new)%list ∧ st'.1 = st.1 ∪ list_to_set new ∧
    ∀ x, x ∈ new → x ∉ st.1.

(** The sources seen but not yet listed are those whose visit is under
    way; each of them leads to the source visited now. *)
Definition gray_reach (srcs : gmap string Source) (name : string) (st : DfsState) : Prop :=
  ∀ g, g ∈ st.1 → g ∉ st.2 → tc (imports srcs) g name.

Definition toposort_post (srcs : gmap string Source) (name : string)
    (st : DfsState) (o : Outcome DfsState) : Prop :=
  match o with
  | Return st' => dfs_inv srcs st' ∧ extends st st' ∧ name ∈ st'.1
  | Throw e => missing_import_from srcs name e
  | Undefined => ¬ all_parsed srcs
  | Starved => False
  end.

(** ** The queries on contracts *)

Inductive ContractQuery :=
| Q_contractNames
| Q_metadata (name : string) (type : DocumentationType)
| Q_interface (name : string)
| Q_solidityInterface (name : string)
| Q_object (name : string)
| Q_runtimeObject (name : string)
| Q_cloneObject (name : string)
| Q_contractDefinition (name : string).

(** How a call ends, its value dropped. *)
Definition ending {A} (o : Outcome A) : Outcome unit := _ ← o; Return tt.

Definition run_query (documentation : ContractDefinition → DocumentationType → Outcome string)
    (q : ContractQuery) (st : CompilerStack) : Outcome unit :=
  match q with
  | Q_contractNames => ending (contractNames st)
  | Q_metadata n t => ending (metadata documentation n t st)
  | Q_interface n => ending (interface documentation n st)
  | Q_solidityInterface n => ending (solidityInterface documentation n st)
  | Q_object n => ending (object n st)
  | Q_runtimeObject n => ending (runtimeObject n st)
  | Q_cloneObject n => ending (cloneObject n st)
  | Q_contractDefinition n => ending (contractDefinition n st)
  end.

(** The names of the contracts a tree defines, in the order of its nodes. *)
Definition contract_names_of (nodes : list ASTNode) : list string :=
  omap (λ n, match n with ContractDefinitionNode c => Some (cd_name c) | _ => None end) nodes.

(** The names of the contracts of the user-supplied sources (those not
    named like a standard source), in the order of the sources; [None] if
    one of these sources has no tree. *)
Fixpoint user_contracts (l : list (string * Source)) : option (list string) :=
  match l with
  | [] => Some []
  | (name, src) :: rest =>
      more ← user_contracts rest;
      if isStandardSource name then Some more
      else nodes ← ast src; Some (contract_names_of nodes ++ more)%list
  end.

(** The claim on the comparator: nulls strictly first, then ascending IDs. *)
Definition nulls_first_ascending (f1 f2 : option IRGen.FunctionDefinition) : Prop :=
  (f1 = None ∧ f2 ≠ None) ∨
  (∃ a b, f1 = Some a ∧ f2 = Some b ∧ IRGen.id a < IRGen.id b).

(** ** Sample inputs *)

Definition import_text (target : string) : string :=
  "import " +:+ dq +:+ target +:+ dq +:+ ";".

(** Sources "A" and "B" that import each other. *)
Definition cyclic_sources : gmap string Source :=
  {[ "A" := mkSource (mkScanner (import_text "B") "A")
              (Some [ImportDirective "B" (mkLoc 0 11 "A")]) false;
     "B" := mkSource (mkScanner (import_text "A") "B")
              (Some [ImportDirective "A" (mkLoc 0 11 "B")]) false ]}.

(** "User" imports "Lib". *)
Definition lib_user_sources : gmap string Source :=
  {[ "Lib" := mkSource (mkScanner "contract L {}" "Lib")
                (Some [ContractDefinitionNode (mkContractDefinition 1 "L" true)]) false;
     "User" := mkSource (mkScanner (import_text "Lib" +:+ " contract U is L {}") "User")
                 (Some [ImportDirective "Lib" (mkLoc 0 13 "User");
                        ContractDefinitionNode (mkContractDefinition 2 "U" true)]) false ]}.

(** "A" imports a source that nobody added. *)
Definition missing_sources : gmap string Source :=
  {[ "A" := mkSource (mkScanner (import_text "Nope") "A")
              (Some [ImportDirective "Nope" (mkLoc 0 14 "A")]) false ]}.

(** Two library sources, one importing the other, and no root. *)
Definition library_sources : gmap string Source :=
  {[ "L" := mkSource (mkScanner (import_text "M") "L")
              (Some [ImportDirective "M" (mkLoc 0 11 "L")]) true;
     "M" := mkSource (mkScanner "contract M {}" "M")
              (Some [ContractDefinitionNode (mkContractDefinition 1 "M" true)]) true ]}.

Definition stack_of (srcs : gmap string Source) : CompilerStack :=
  mkStack false srcs [] ∅.

(** A driver to which the two texts were added, nothing parsed yet. *)
Definition cyclic_stack : CompilerStack :=
  (addSource "B" (import_text "A") false
     (addSource "A" (import_text "B") false (newCompilerStack false)).1).1.

(** Stand-ins for the collaborators: a parser that knows the two texts of
    [cyclic_sources], and a resolver without state that accepts everything. *)
Definition sample_parser (sc : Scanner) : Outcome SourceUnit :=
  match cyclic_sources !! sc_sourceName sc with
  | Some s =>
      if bool_decide (sc_source (scanner s) = sc_source sc)
      then match ast s with Some u => Return u | None => Undefined end
      else Throw (CollaboratorError "Expected import directive.")
  | None => Throw (CollaboratorError "Expected import directive.")
  end.

Definition accept {X} (r : unit) (x : X) : Outcome unit := Return tt.

(** A parser that reads the whole text as the name of one contract, and a
    type checker that rejects every contract. *)
Definition contract_parser (sc : Scanner) : Outcome SourceUnit :=
  Return [ContractDefinitionNode (mkContractDefinition 1 (sc_source sc) true)].

Definition reject {X} (r : unit) (x : X) : Outcome unit :=
  Throw (CollaboratorError "Type error.").

Definition no_documentation (c : ContractDefinition) (t : DocumentationType)
    : Outcome string := Return EmptyString.

(** A user source with two contracts next to the standard source "owned". *)
Definition two_contract_stack : CompilerStack :=
  mkStack true
    {[ "owned" := mkSource (mkScanner "contract owned{}" "owned")
                    (Some [ContractDefinitionNode (mkContractDefinition 1 "owned" true)]) true;
       "main" := mkSource (mkScanner "contract A{} contract B{}" "main")
                   (Some [ImportDirective "owned" (mkLoc 0 15 "main");
                          ContractDefinitionNode (mkContractDefinition 2 "A" true);
                          ContractDefinitionNode (mkContractDefinition 3 "B" true)]) false ]}
    ["owned"; "main"]
    {[ "owned" := mkContract (Some (mkContractDefinition 1 "owned" true)) None
                    (mkLinkerObject [96; 0] ∅) (mkLinkerObject [96; 0] ∅) emptyObject
                    None None None None;
       "A" := mkContract (Some (mkContractDefinition 2 "A" true)) None
                (mkLinkerObject [96; 1] ∅) (mkLinkerObject [96; 1] {[ 1%N := "L" ]}) emptyObject
                None None None None;
       "B" := mkContract (Some (mkContractDefinition 3 "B" true)) None
                (mkLinkerObject [96; 2] ∅) (mkLinkerObject [96; 2] ∅) emptyObject
                None None None None ]}.

(** A user source that only imports the standard source "owned". *)
Definition import_only_stack : CompilerStack :=
  mkStack true
    {[ "owned" := mkSource (mkScanner "contract owned{}" "owned")
                    (Some [ContractDefinitionNode (mkContractDefinition 1 "owned" true)]) true;
       "main" := mkSource (mkScanner (import_text "owned") "main")
                   (Some [ImportDirective "owned" (mkLoc 0 15 "main")]) false ]}
    ["owned"; "main"]
    {[ "owned" := mkContract (Some (mkContractDefinition 1 "owned" true)) None
                    (mkLinkerObject [96; 0] ∅) (mkLinkerObject [96; 0] ∅) emptyObject
                    None None None None ]}.

(** A stand-in for the hash: never zero. *)
Definition sample_hash (b : list Z) : Z := 1 + Z.of_nat (length b).

(** A stand-in for the optimiser: a program is its size, a chromosome the
    number of bytes one round removes. *)
Definition sample_metric (size : N) : Phaser.RelativeProgramSize N :=
  Phaser.mkRelative N (Phaser.mkMetric N size 1) 3%N.

Definition sample_optimise (c : N) (p : N) : N := (p - c)%N.

(** A source of the map with a parsed tree. *)
Definition has_tree (srcs : gmap string Source) (x : string) : Prop :=
  ∃ s nodes, srcs !! x = Some s ∧ ast s = Some nodes.

(** A root "b" importing the libraries "A" (which imports "Z") and "c",
    next to a library "lib" that nothing imports and that names a source
    nobody added. *)
Definition mixed_sources : gmap string Source :=
  {[ "b" := mkSource (mkScanner (import_text "A" +:+ import_text "c") "b")
              (Some [ImportDirective "A" (mkLoc 0 11 "b");
                     ImportDirective "c" (mkLoc 11 22 "b")]) false;
     "A" := mkSource (mkScanner (import_text "Z") "A")
              (Some [ImportDirective "Z" (mkLoc 0 11 "A")]) true;
     "Z" := mkSource (mkScanner "contract Z {}" "Z")
              (Some [ContractDefinitionNode (mkContractDefinition 1 "Z" true)]) true;
     "c" := mkSource (mkScanner "contract C {}" "c")
              (Some [ContractDefinitionNode (mkContractDefinition 2 "C" true)]) true;
     "lib" := mkSource (mkScanner (import_text "gone") "lib")
                (Some [ImportDirective "gone" (mkLoc 0 14 "lib")]) true ]}.

(** A compiled contract "C" whose runtime items hold the tags 5, 7 and 5
    again behind a push; a function is named by the data of its tag. *)
Definition sample_items (c : Compiler) : list AssemblyItem :=
  [mkItem (OtherItem 1) 5; mkItem Tag 5; mkItem Tag 7; mkItem Tag 5].

Definition sample_label (c : Compiler) (f : Z) : AssemblyItem :=
  if f <? 0 then mkItem UndefinedItem 0 else mkItem Tag f.

Definition compiled_stack : CompilerStack :=
  mkStack true
    {[ "main" := mkSource (mkScanner "contract C{}" "main")
                   (Some [ContractDefinitionNode (mkContractDefinition 1 "C" true)]) false ]}
    ["main"]
    {[ "C" := mkContract (Some (mkContractDefinition 1 "C" true)) (Some (mkCompiler 1))
                (mkLinkerObject [96; 1] ∅) (mkLinkerObject [96; 2] ∅)
                (mkLinkerObject [96; 3] ∅) None None None None ]}.

(** The record [parse] leaves for a contract in a table that was empty:
    the pointer to the definition and nothing else. *)
Definition registered_record (c : ContractDefinition) : Contract :=
  mkContract (Some c) None emptyObject emptyObject emptyObject None None None None.

(** A parser that knows the sources of a table by name and text, and
    returns the tree the table holds. *)
Definition table_parser (table : gmap string Source) (sc : Scanner)
    : Outcome SourceUnit :=
  match table !! sc_sourceName sc with
  | Some s =>
      if bool_decide (sc_source (scanner s) = sc_source sc)
      then match ast s with Some u => Return u | None => Undefined end
      else Throw (CollaboratorError "Unexpected text.")
  | None => Throw (CollaboratorError "Unexpected text.")
  end.

(** A parser that reads the whole text as the name of one imported source. *)
Definition import_parser (sc : Scanner) : Outcome SourceUnit :=
  Return [ImportDirective (sc_source sc) (mkLoc 0 0 (sc_sourceName sc))].

(** A driver to which the text of one import was added. *)
Definition missing_stack : CompilerStack :=
  (addSource "A" "Nope" false (newCompilerStack false)).1.

(** A record whose bytecode, if it has a compiler, is what that compiler
    hands out. *)
Definition record_consistent (assembledObject compiler_runtimeObject : Compiler → LinkerObject)
    (r : Contract) : Prop :=
  ∀ comp, compiler r = Some comp →
    object_ r = assembledObject comp ∧ runtimeObject_ r = compiler_runtimeObject comp.

(** Two records that differ at most in the compiler and the bytecode. *)
Definition same_registration (r r' : Contract) : Prop :=
  contract_ptr r' = contract_ptr r ∧ interface_ r' = interface_ r ∧
  solidityInterface_ r' = solidityInterface_ r ∧
  userDocumentation r' = userDocumentation r ∧
  devDocumentation r' = devDocumentation r.

(** Stand-ins for the emitter: the compiler of a contract carries the id
    of the definition, and its bytecode is that id. *)
Definition sample_compileContract (optimize : bool) (runs : N)
    (c : ContractDefinition) (compiled : CompiledContracts) : Outcome Compiler :=
  Return (mkCompiler (cd_id c)).

Definition sample_assembledObject (c : Compiler) : LinkerObject :=
  mkLinkerObject [96; compiler_id c] ∅.

Definition sample_runtimeObject (c : Compiler) : LinkerObject :=
  mkLinkerObject [compiler_id c] ∅.

(** A source with an abstract contract "I" and a contract "C". *)
Definition abstract_sources : gmap string Source :=
  {[ "main" := mkSource (mkScanner "contract I { function f(); } contract C {}" "main")
                 (Some [ContractDefinitionNode (mkContractDefinition 1 "I" false);
                        ContractDefinitionNode (mkContractDefinition 2 "C" true)]) false ]}.

(** A user source "a" and a source "z" added as a library that nothing
    imports, parsed by the parser that reads a text as a contract name. *)
Definition unlisted_library_stack : CompilerStack :=
  (parse unit contract_parser tt accept accept accept
     (addSource "z" "Z" true
        (addSource "a" "A" false (newCompilerStack false)).1).1).1.

(** "a" (contract "A") imports "b" (contract "B"): the source order lists
    "b" first, the source map "a". *)
Definition import_first_sources : gmap string Source :=
  {[ "a" := mkSource (mkScanner (import_text "b" +:+ " contract A {}") "a")
              (Some [ImportDirective "b" (mkLoc 0 11 "a");
                     ContractDefinitionNode (mkContractDefinition 1 "A" true)]) false;
     "b" := mkSource (mkScanner "contract B {}" "b")
              (Some [ContractDefinitionNode (mkContractDefinition 2 "B" true)]) false ]}.

Definition import_first_stack : CompilerStack :=
  (parse unit (table_parser import_first_sources) tt accept accept accept
     (addSource "b" "contract B {}" false
        (addSource "a" (import_text "b" +:+ " contract A {}") false
           (newCompilerStack false)).1).1).1.




(** ** Iterating over a map *)

Lemma insert_by_key_perm {T} (kv : string * T) (l : list (string * T)) :
  insert_by_key kv l ≡ₚ kv :: l.
Proof.
  induction l as [|kv' l IH]; simpl; [done|].
  destruct (String.leb kv.1 kv'.1); [done|].
  rewrite IH. apply Permutation_swap.
Qed.

Lemma sort_by_key_perm {T} (l : list (string * T)) : sort_by_key l ≡ₚ l.
Proof.
  induction l as [|kv l IH]; simpl; [done|].
  rewrite insert_by_key_perm. by rewrite IH.
Qed.

Lemma elem_of_map_iter {T} (m : gmap string T) (k : string) (v : T) :
  (k, v) ∈ map_iter m ↔ m !! k = Some v.
Proof.
  unfold map_iter. rewrite sort_by_key_perm. apply elem_of_map_to_list.
Qed.

Lemma map_iter_nodup_keys {T} (m : gmap string T) : NoDup (map_iter m).*1.
Proof.
  unfold map_iter. rewrite sort_by_key_perm. apply NoDup_fst_map_to_list.
Qed.

(** The iteration visits the keys in ascending order. *)
Lemma insert_by_key_sorted {T} (kv : string * T) (l : list (string * T)) :
  Sorted (λ a b, String.leb a.1 b.1 = true) l →
  Sorted (λ a b, String.leb a.1 b.1 = true) (insert_by_key kv l).
Proof.
  induction l as [|kv' l IH]; intros Hs; simpl.
  { by repeat constructor. }
  destruct (String.leb kv.1 kv'.1) eqn:Hle.
  { constructor; [done|]. by constructor. }
  apply Sorted_inv in Hs as [Hs Hhd]. constructor; [by apply IH|].
  destruct l as [|kv2 l]; simpl.
  - constructor. destruct (String.leb_total kv.1 kv'.1); congruence.
  - destruct (String.leb kv.1 kv2.1).
    + constructor. destruct (String.leb_total kv.1 kv'.1); congruence.
    + constructor. by apply HdRel_inv in Hhd.
Qed.

Lemma map_iter_sorted {T} (m : gmap string T) :
  Sorted (λ a b, String.leb a.1 b.1 = true) (map_iter m).
Proof.
  unfold map_iter, sort_by_key.
  induction (map_to_list m) as [|kv l IH]; simpl; [constructor|].
  by apply insert_by_key_sorted.
Qed.

(** ** The depth-first search *)

Lemma precedes_app (y x : string) (l l' : list string) :
  precedes y x l → precedes y x (l ++ l').
Proof.
  intros (i & j & Hi & Hj & Hlt). exists i, j.
  split_and!; [by apply lookup_app_l_Some | by apply lookup_app_l_Some | done].
Qed.

Lemma precedes_snoc (y x : string) (l : list string) :
  y ∈ l → precedes y x (l ++ [x]).
Proof.
  intros Hy. apply list_elem_of_lookup in Hy as [i Hi].
  exists i, (length l). split_and!.
  - by apply lookup_app_l_Some.
  - rewrite lookup_app_r; [|lia]. by rewrite Nat.sub_diag.
  - by eapply lookup_lt_Some.
Qed.

Lemma extends_refl (st : DfsState) : extends st st.
Proof.
  exists []. split_and!; [by rewrite app_nil_r | set_solver | set_solver].
Qed.

Lemma extends_trans (st1 st2 st3 : DfsState) :
  extends st1 st2 → extends st2 st3 → extends st1 st3.
Proof.
  intros (n1 & Ho1 & Hs1 & Hn1) (n2 & Ho2 & Hs2 & Hn2).
  exists (n1 ++ n2)%list. split_and!.
  - by rewrite Ho2, Ho1, app_assoc.
  - rewrite Hs2, Hs1, list_to_set_app_L. set_solver.
  - intros x [Hx|Hx]%elem_of_app; [by apply Hn1|].
    apply Hn2 in Hx. rewrite Hs1 in Hx. set_solver.
Qed.

Lemma extends_seen (st st' : DfsState) (x : string) :
  extends st st' → x ∈ st.1 → x ∈ st'.1.
Proof. intros (new & _ & Hs & _) Hx. rewrite Hs. set_solver. Qed.

(** A call leaves the sources under visit as they were. *)
Lemma extends_gray (st st' : DfsState) (g : string) :
  extends st st' → g ∈ st'.1 → g ∉ st'.2 → g ∈ st.1 ∧ g ∉ st.2.
Proof.
  intros (new & Ho & Hs & _) Hg Hng. rewrite Ho in Hng. rewrite Hs in Hg.
  rewrite not_elem_of_app in Hng. destruct Hng as [Hn1 Hn2].
  split; [|done]. apply elem_of_union in Hg as [Hg|Hg]; [done|].
  by apply elem_of_list_to_set in Hg.
Qed.

Lemma extends_fuel (srcs : gmap string Source) (st st' : DfsState) (fuel : nat) :
  extends st st' → (size (dom srcs ∖ st.1) < fuel)%nat →
  (size (dom srcs ∖ st'.1) < fuel)%nat.
Proof.
  intros Hext Hlt. eapply Nat.le_lt_trans; [|exact Hlt].
  apply subseteq_size. intros x Hx. apply elem_of_difference in Hx as [Hx1 Hx2].
  apply elem_of_difference. split; [done|]. intros Hin. apply Hx2.
  by eapply extends_seen.
Qed.

Section Toposort.

Variable srcs : gmap string Source.

Lemma imports_edge (name id : string) (loc : SourceLocation) (s : Source) :
  has_import srcs name id loc → srcs !! id = Some s → imports srcs name id.
Proof. intros Himp Hs. split; [by exists s | by exists loc]. Qed.

(** The state in which the loop over the nodes of [name] starts. *)
Lemma dfs_inv_enter (name : string) (src : Source) (st : DfsState) :
  srcs !! name = Some src → dfs_inv srcs st →
  dfs_inv srcs ({[name]} ∪ st.1, st.2).
Proof.
  intros Hsrc [Hsub Hdom Hnd Hord Hcl]. split; simpl.
  - intros x Hx. apply elem_of_union_r. by apply Hsub.
  - intros x [Hx|Hx]%elem_of_union; [|by apply Hdom].
    apply elem_of_singleton in Hx. subst x. by exists src.
  - done.
  - done.
  - intros x id loc Hx Hxy. destruct (Hcl x id loc Hx Hxy) as [Hs Hin].
    split; [done|]. by apply elem_of_union_r.
Qed.

(** The state in which the visit of [name] ends: [name] is listed after
    everything its loop added. *)
Lemma dfs_inv_leave (name : string) (src : Source) (nodes : list ASTNode)
    (st : DfsState) :
  srcs !! name = Some src → ast src = Some nodes →
  dfs_inv srcs st → name ∈ st.1 → name ∉ st.2 →
  (∀ g, g ∈ st.1 → g ∉ st.2 → g = name ∨ tc (imports srcs) g name) →
  (∀ id loc, ImportDirective id loc ∈ nodes → is_Some (srcs !! id) ∧ id ∈ st.1) →
  dfs_inv srcs (st.1, (st.2 ++ [name])%list).
Proof.
  intros Hsrc Hast [Hsub Hdom Hnd Hord Hcl] Hin Hnotin Hgray Hvisited.
  assert (Hown : ∀ id loc, has_import srcs name id loc →
                           is_Some (srcs !! id) ∧ id ∈ st.1).
  { intros id loc (s & ns & Hs & Hns & Hel).
    rewrite Hsrc in Hs. injection Hs as <-. rewrite Hast in Hns.
    injection Hns as <-. by eapply Hvisited. }
  assert (Hout : ∀ y, imports srcs name y → y ∈ st.1).
  { intros y [_ [loc Hy]]. by apply (Hown y loc). }
  split; simpl.
  - intros x [Hx|Hx]%elem_of_app; [by apply Hsub|].
    apply list_elem_of_singleton in Hx. by subst x.
  - done.
  - apply NoDup_app. split_and!; [done| |apply NoDup_singleton].
    intros x Hx Hx'. apply list_elem_of_singleton in Hx'. by subst x.
  - intros x y [Hx|Hx]%elem_of_app Hxy.
    + destruct (Hord x y Hx Hxy) as [Hp|Hc]; [left|by right].
      by apply precedes_app.
    + apply list_elem_of_singleton in Hx. subst x.
      destruct (decide (y ∈ st.2)) as [Hy|Hy].
      * left. by apply precedes_snoc.
      * right. destruct (Hgray y (Hout y Hxy) Hy) as [->|Hc]; [|done].
        by apply tc_once.
  - intros x id loc [Hx|Hx]%elem_of_app Hxy; [by eapply Hcl|].
    apply list_elem_of_singleton in Hx. subst x. by apply (Hown id loc).
Qed.

(** The loop over the nodes of [name], for a recursive call that keeps its
    contract. *)
Lemma visit_imports_post (fuel : nat) (name : string)
    (rec : string → Source → DfsState → Outcome DfsState) :
  (∀ id s st, srcs !! id = Some s → dfs_inv srcs st → gray_reach srcs id st →
     (size (dom srcs ∖ st.1) < fuel)%nat →
     toposort_post srcs id st (rec id s st)) →
  ∀ (rest : list ASTNode) (st : DfsState),
    (∀ id loc, ImportDirective id loc ∈ rest → has_import srcs name id loc) →
    dfs_inv srcs st →
    (∀ g, g ∈ st.1 → g ∉ st.2 → g = name ∨ tc (imports srcs) g name) →
    (size (dom srcs ∖ st.1) < fuel)%nat →
    match visit_imports rec srcs rest st with
    | Return st' =>
        dfs_inv srcs st' ∧ extends st st' ∧
        ∀ id loc, ImportDirective id loc ∈ rest → is_Some (srcs !! id) ∧ id ∈ st'.1
    | Throw e => missing_import_from srcs name e
    | Undefined => ¬ all_parsed srcs
    | Starved => False
    end.
Proof.
  intros Hrec rest. induction rest as [|node rest IH]; intros st Hnodes Hinv Hgray Hfuel.
  { simpl. split_and!; [done|apply extends_refl|].
    intros id loc Hel. by apply elem_of_nil in Hel. }
  assert (Hrest : ∀ id loc, ImportDirective id loc ∈ rest →
                            has_import srcs name id loc).
  { intros id loc Hel. apply Hnodes. by apply list_elem_of_further. }
  destruct node as [id loc|c|]; simpl.
  - assert (Himp : has_import srcs name id loc) by (apply Hnodes; apply list_elem_of_here).
    destruct (srcs !! id) as [s|] eqn:Hid.
    + assert (Hedge : imports srcs name id) by (by eapply imports_edge).
      assert (Hg : gray_reach srcs id st).
      { intros g Hg1 Hg2. destruct (Hgray g Hg1 Hg2) as [->|Hc].
        - by apply tc_once.
        - by eapply tc_r. }
      specialize (Hrec id s st Hid Hinv Hg Hfuel).
      destruct (rec id s st) as [st1|e| |]; simpl in *; [| |done|done].
      * destruct Hrec as (Hinv1 & Hext1 & Hid1).
        assert (Hgray1 : ∀ g, g ∈ st1.1 → g ∉ st1.2 →
                              g = name ∨ tc (imports srcs) g name).
        { intros g Hg1 Hg2.
          destruct (extends_gray st st1 g Hext1 Hg1 Hg2). by apply Hgray. }
        specialize (IH st1 Hrest Hinv1 Hgray1 (extends_fuel srcs st st1 fuel Hext1 Hfuel)).
        destruct (visit_imports rec srcs rest st1) as [st2|e| |]; simpl; [|done..].
        destruct IH as (Hinv2 & Hext2 & Hvis2).
        split_and!; [done|by eapply extends_trans|].
        intros id' loc' [Heq|Hel]%elem_of_cons.
        -- injection Heq as -> ->. split; [by exists s|]. by eapply extends_seen.
        -- by eapply Hvis2.
      * destruct Hrec as (A & id' & loc' & Hreach & Hmiss & Hnone & ->).
        exists A, id', loc'. split_and!; [|done|done|done].
        by eapply rtc_l.
    + exists name, id, loc. by split_and!.
  - specialize (IH st Hrest Hinv Hgray Hfuel).
    destruct (visit_imports rec srcs rest st) as [st2|e| |]; [|done|done|done].
    destruct IH as (Hinv2 & Hext2 & Hvis2). split_and!; [done|done|].
    intros id' loc' [Heq|Hel]%elem_of_cons; [done|by eapply Hvis2].
  - specialize (IH st Hrest Hinv Hgray Hfuel).
    destruct (visit_imports rec srcs rest st) as [st2|e| |]; [|done|done|done].
    destruct IH as (Hinv2 & Hext2 & Hvis2). split_and!; [done|done|].
    intros id' loc' [Heq|Hel]%elem_of_cons; [done|by eapply Hvis2].
Qed.

(** The contract of one call of the lambda, whatever way it ends. *)
Lemma toposort_spec (fuel : nat) :
  ∀ (name : string) (src : Source) (st : DfsState),
    srcs !! name = Some src → dfs_inv srcs st → gray_reach srcs name st →
    (size (dom srcs ∖ st.1) < fuel)%nat →
    toposort_post srcs name st (toposort fuel srcs name src st).
Proof.
  induction fuel as [|fuel IH]; intros name src st Hsrc Hinv Hgray Hfuel; [lia|].
  simpl. case_bool_decide as Hseen.
  { simpl. split_and!; [done|apply extends_refl|done]. }
  destruct (ast src) as [nodes|] eqn:Hast; simpl.
  2:{ intros Hall. destruct (Hall name src Hsrc) as [u Hu]. congruence. }
  assert (Hlt : (size (dom srcs ∖ ({[name]} ∪ st.1)) < fuel)%nat).
  { assert (size (dom srcs ∖ ({[name]} ∪ st.1)) < size (dom srcs ∖ st.1))%nat; [|lia].
    apply subset_size. apply strict_spec_alt. split; [set_solver|].
    intros Heq. assert (Hn : name ∈ dom srcs ∖ st.1).
    { apply elem_of_difference. split; [|done]. apply elem_of_dom. by exists src. }
    rewrite <- Heq in Hn. set_solver. }
  assert (Hgray1 : ∀ g, g ∈ {[name]} ∪ st.1 → g ∉ st.2 →
                        g = name ∨ tc (imports srcs) g name).
  { intros g [Hg|Hg]%elem_of_union Hng.
    - left. by apply elem_of_singleton in Hg.
    - right. by apply Hgray. }
  assert (Hnodes : ∀ id loc, ImportDirective id loc ∈ nodes →
                             has_import srcs name id loc).
  { intros id loc Hel. by exists src, nodes. }
  pose proof (visit_imports_post fuel name (toposort fuel srcs) IH nodes
                ({[name]} ∪ st.1, st.2) Hnodes (dfs_inv_enter name src st Hsrc Hinv)
                Hgray1 Hlt) as Hloop.
  destruct (visit_imports (toposort fuel srcs) srcs nodes ({[name]} ∪ st.1, st.2))
    as [st'|e| |]; simpl; [|done..].
  destruct Hloop as (Hinv' & (new & Ho & Hs & Hnew) & Hvis'). simpl in Ho, Hs, Hnew.
  assert (Hname : name ∈ st'.1) by (rewrite Hs; set_solver).
  assert (Hnot : name ∉ st'.2).
  { rewrite Ho. apply not_elem_of_app. split.
    - intros Hx. apply Hseen. by apply (inv_sub _ _ Hinv).
    - intros Hx. apply (Hnew name Hx). set_solver. }
  split_and!.
  - apply (dfs_inv_leave name src nodes st' Hsrc Hast Hinv' Hname Hnot); [|done].
    intros g Hg Hng. rewrite Hs in Hg. rewrite Ho in Hng.
    apply not_elem_of_app in Hng as [Hng1 Hng2].
    apply elem_of_union in Hg as [Hg|Hg]; [by apply Hgray1|].
    by apply elem_of_list_to_set in Hg.
  - exists (new ++ [name])%list. simpl. split_and!.
    + by rewrite Ho, app_assoc.
    + rewrite Hs, list_to_set_app_L. set_solver.
    + intros x [Hx|Hx]%elem_of_app.
      * intros Hin. apply (Hnew x Hx). set_solver.
      * apply list_elem_of_singleton in Hx. by subst x.
  - done.
Qed.

(** The loop over the roots. *)
Lemma visit_roots_spec (fuel : nat) (l : list (string * Source)) :
  ∀ st : DfsState,
    (∀ name src, (name, src) ∈ l → srcs !! name = Some src) →
    dfs_inv srcs st → (∀ g, g ∈ st.1 → g ∈ st.2) →
    (size (dom srcs ∖ st.1) < fuel)%nat →
    match visit_roots fuel srcs l st with
    | Return st' =>
        dfs_inv srcs st' ∧ (∀ g, g ∈ st'.1 → g ∈ st'.2) ∧ extends st st' ∧
        ∀ name src, (name, src) ∈ l → isLibrary src = false → name ∈ st'.1
    | Throw e =>
        ∃ name src, (name, src) ∈ l ∧ isLibrary src = false ∧
          missing_import_from srcs name e
    | Undefined => ¬ all_parsed srcs
    | Starved => False
    end.
Proof.
  induction l as [|[name src] l IH]; intros st Hl Hinv Hgray Hfuel.
  { simpl. split_and!; [done|done|apply extends_refl|].
    intros name src Hel. by apply elem_of_nil in Hel. }
  assert (Hl' : ∀ n s, (n, s) ∈ l → srcs !! n = Some s).
  { intros n s Hel. apply Hl. by apply list_elem_of_further. }
  simpl. destruct (isLibrary src) eqn:Hlib.
  { specialize (IH st Hl' Hinv Hgray Hfuel).
    destruct (visit_roots fuel srcs l st) as [st'|e| |]; [| |done|done].
    - destruct IH as (Hinv' & Hgray' & Hext' & Hroots). split_and!; [done..|].
      intros n s [Heq|Hel]%elem_of_cons Hs; [|by eapply Hroots].
      injection Heq as -> ->. congruence.
    - destruct IH as (n & s & Hel & Hs & Hmiss). exists n, s.
      split_and!; [by apply list_elem_of_further|done|done]. }
  assert (Hsrc : srcs !! name = Some src) by (apply Hl; apply list_elem_of_here).
  assert (Hg : gray_reach srcs name st).
  { intros g Hg1 Hg2. by destruct (Hg2 (Hgray g Hg1)). }
  pose proof (toposort_spec fuel name src st Hsrc Hinv Hg Hfuel) as Hcall.
  destruct (toposort fuel srcs name src st) as [st1|e| |]; simpl in *; [| |done|done].
  - destruct Hcall as (Hinv1 & Hext1 & Hname1).
    assert (Hgray1 : ∀ g, g ∈ st1.1 → g ∈ st1.2).
    { intros g Hg1. destruct (decide (g ∈ st1.2)) as [|Hng]; [done|].
      destruct (extends_gray st st1 g Hext1 Hg1 Hng) as [Hg0 Hng0].
      by destruct (Hng0 (Hgray g Hg0)). }
    specialize (IH st1 Hl' Hinv1 Hgray1 (extends_fuel srcs st st1 fuel Hext1 Hfuel)).
    destruct (visit_roots fuel srcs l st1) as [st'|e| |]; [| |done|done].
    + destruct IH as (Hinv' & Hgray' & Hext' & Hroots).
      split_and!; [done|done|by eapply extends_trans|].
      intros n s [Heq|Hel]%elem_of_cons Hs; [|by eapply Hroots].
      injection Heq as -> ->. by eapply extends_seen.
    + destruct IH as (n & s & Hel & Hs & Hmiss). exists n, s.
      split_and!; [by apply list_elem_of_further|done|done].
  - exists name, src. split_and!; [apply list_elem_of_here|done|done].
Qed.

End Toposort.

Lemma dfs_inv_init (srcs : gmap string Source) : dfs_inv srcs (∅, []).
Proof.
  split; simpl.
  - intros x Hx. by apply elem_of_nil in Hx.
  - intros x Hx. by apply elem_of_empty in Hx.
  - apply NoDup_nil_2.
  - intros x y Hx. by apply elem_of_nil in Hx.
  - intros x id loc Hx. by apply elem_of_nil in Hx.
Qed.

(** Everything the search promises about the order it computes, for each
    of the ways it can end. *)
Lemma sourceOrder_of_spec (srcs : gmap string Source) :
  match sourceOrder_of srcs with
  | Return order =>
      NoDup order ∧ ordered srcs order ∧
      (∀ x id loc, x ∈ order → has_import srcs x id loc →
         is_Some (srcs !! id) ∧ id ∈ order) ∧
      (∀ r, is_root srcs r → r ∈ order) ∧
      (∀ x, x ∈ order → is_Some (srcs !! x))
  | Throw e => ∃ r, is_root srcs r ∧ missing_import_from srcs r e
  | Undefined => ¬ all_parsed srcs
  | Starved => False
  end.
Proof.
  unfold sourceOrder_of.
  assert (Hfuel : (size (dom srcs ∖ (∅ : gset string)) < S (size srcs))%nat).
  { rewrite difference_empty_L, size_dom. lia. }
  pose proof (visit_roots_spec srcs (S (size srcs)) (map_iter srcs) (∅, [])
                (λ name src, proj1 (elem_of_map_iter srcs name src))
                (dfs_inv_init srcs) (λ g Hg, False_ind _ (not_elem_of_empty g Hg))
                Hfuel) as H.
  destruct (visit_roots (S (size srcs)) srcs (map_iter srcs) (∅, [])) as [st'|e| |];
    simpl; [| |done..].
  - destruct H as (Hinv & Hgray & _ & Hroots). split_and!.
    + apply (inv_nodup _ _ Hinv).
    + apply (inv_ordered _ _ Hinv).
    + intros x id loc Hx Hxy.
      destruct (inv_closed _ _ Hinv x id loc Hx Hxy) as [Hs Hin].
      split; [done|]. by apply Hgray.
    + intros r (s & Hs & Hlib). apply Hgray. eapply Hroots; [|done].
      by apply elem_of_map_iter.
    + intros x Hx. apply (inv_dom _ _ Hinv). by apply (inv_sub _ _ Hinv).
  - destruct H as (name & src & Hel & Hlib & Hmiss).
    exists name. split; [|done]. exists src. split; [|done].
    by apply elem_of_map_iter.
Qed.

(** A list closed under the import edges holds whatever its members reach. *)
Lemma closed_reach (srcs : gmap string Source) (order : list string) (r A : string) :
  (∀ x id loc, x ∈ order → has_import srcs x id loc →
     is_Some (srcs !! id) ∧ id ∈ order) →
  r ∈ order → rtc (imports srcs) r A → A ∈ order.
Proof.
  intros Hcl Hr Hreach. induction Hreach as [|x y z Hxy _ IH]; [done|].
  apply IH. destruct Hxy as [_ [loc Hxy]]. by apply (Hcl x y loc).
Qed.

Lemma resolveImports_inv (st st' : CompilerStack) :
  resolveImports st = Return st' →
  sourceOrder_of (m_sources st) = Return (m_sourceOrder st') ∧
  m_sources st' = m_sources st ∧ m_contracts st' = m_contracts st ∧
  m_parseSuccessful st' = m_parseSuccessful st.
Proof.
  unfold resolveImports. destruct (sourceOrder_of (m_sources st)); simpl; [|done..].
  intros [= <-]. done.
Qed.

(** With every tree parsed and every import naming a source of the map,
    the search returns. *)
Lemma sourceOrder_of_returns (srcs : gmap string Source) :
  all_parsed srcs → imports_resolved srcs →
  ∃ order, sourceOrder_of srcs = Return order.
Proof.
  intros Hall Hres. pose proof (sourceOrder_of_spec srcs) as H.
  destruct (sourceOrder_of srcs) as [order|e| |]; [by exists order| |done..].
  destruct H as (r & _ & A & id & loc & _ & Hmiss & Hnone & _).
  destruct (Hres A id loc Hmiss) as [s Hs]. congruence.
Qed.

(** ** Import order (claims C1, C5, C6) *)

Lemma not_precedes_swapped (a b : string) : a ≠ b → ¬ precedes a b [b; a].
Proof.
  intros Hne (i & j & Hi & Hj & Hlt).
  destruct i as [|[|i]], j as [|[|j]]; simplify_eq/=; lia.
Qed.

(** C1, as amended: when [resolveImports] returns, every import edge
    A → B whose source A is in the order has B before A, unless B itself
    leads back to A through imports (the edge closes a cycle). *)
Theorem resolveImports_import_before_importer (st st' : CompilerStack) (A B : string) :
  resolveImports st = Return st' →
  A ∈ m_sourceOrder st' →
  imports (m_sources st) A B →
  ¬ tc (imports (m_sources st)) B A →
  precedes B A (m_sourceOrder st').
Proof.
  intros Hres HA Hedge Hacyc.
  apply resolveImports_inv in Hres as (Hord & _).
  pose proof (sourceOrder_of_spec (m_sources st)) as H. rewrite Hord in H.
  destruct H as (_ & Hordered & _).
  by destruct (Hordered A B HA Hedge).
Qed.

Lemma lib_user_no_way_back : ¬ tc (imports lib_user_sources) "Lib" "User".
Proof.
  intros Htc. apply tc_rtc in Htc. apply rtc_inv in Htc as [Heq|(y & Hstep & _)]; [done|].
  destruct Hstep as [_ (loc & s & nodes & Hs & Hast & Hel)].
  vm_compute in Hs. injection Hs as <-. simpl in Hast. injection Hast as <-.
  apply list_elem_of_singleton in Hel. done.
Qed.

Lemma resolveImports_import_before_importer_witness :
  resolveImports (stack_of lib_user_sources)
    = Return (mkStack false lib_user_sources ["Lib"; "User"] ∅) ∧
  precedes "Lib" "User" ["Lib"; "User"].
Proof.
  assert (Hrun : resolveImports (stack_of lib_user_sources)
                 = Return (mkStack false lib_user_sources ["Lib"; "User"] ∅))
    by (vm_compute; reflexivity).
  split; [exact Hrun|].
  apply (resolveImports_import_before_importer (stack_of lib_user_sources)
           (mkStack false lib_user_sources ["Lib"; "User"] ∅) "User" "Lib" Hrun).
  - simpl. apply list_elem_of_further, list_elem_of_here.
  - split; [by vm_compute; eexists|].
    exists (mkLoc 0 13 "User"). eexists _, _. split_and!; [by vm_compute| reflexivity |].
    apply list_elem_of_here.
  - exact lib_user_no_way_back.
Defined.

(** Library sources that nothing imports are not listed at all, so neither
    end of an edge between them has a place in the order. *)
Lemma resolveImports_unreached_libraries :
  resolveImports (stack_of library_sources)
    = Return (mkStack false library_sources [] ∅) ∧
  imports library_sources "L" "M" ∧
  ¬ precedes "M" "L" [].
Proof.
  split_and!.
  - vm_compute. reflexivity.
  - split; [by vm_compute; eexists|].
    exists (mkLoc 0 11 "L"). eexists _, _. split_and!; [by vm_compute| reflexivity |].
    apply list_elem_of_here.
  - intros (i & j & Hi & _). by rewrite lookup_nil in Hi.
Qed.

(** C1, as stated, fails on a cycle: with "A" and "B" importing each other
    the order is ["B"; "A"], and the edge B → A has its target after its
    source. *)
Lemma resolveImports_cycle_counterexample :
  resolveImports (stack_of cyclic_sources)
    = Return (mkStack false cyclic_sources ["B"; "A"] ∅) ∧
  imports cyclic_sources "B" "A" ∧
  ¬ precedes "A" "B" ["B"; "A"].
Proof.
  split_and!.
  - vm_compute. reflexivity.
  - split; [by vm_compute; eexists|].
    exists (mkLoc 0 11 "B"). eexists _, _. split_and!; [by vm_compute| reflexivity |].
    apply list_elem_of_here.
  - by apply not_precedes_swapped.
Qed.

(** C6: if a source that a root reaches holds an import directive whose
    target is not in the source map, [resolveImports] raises ParserError
    Source-not-found, and the location attached is the location of such a
    directive in such a source (the first one the search meets; it is the
    given one when no other import is missing). *)
Theorem resolveImports_missing_import (st : CompilerStack) (r A id : string)
    (loc : SourceLocation) :
  all_parsed (m_sources st) →
  is_root (m_sources st) r →
  rtc (imports (m_sources st)) r A →
  has_import (m_sources st) A id loc →
  m_sources st !! id = None →
  ∃ r' A' id' loc',
    is_root (m_sources st) r' ∧ rtc (imports (m_sources st)) r' A' ∧
    has_import (m_sources st) A' id' loc' ∧ m_sources st !! id' = None ∧
    resolveImports st = Throw (ParserError loc' "Source not found.") ∧
    ((∀ A2 id2 loc2, has_import (m_sources st) A2 id2 loc2 →
        m_sources st !! id2 = None → loc2 = loc) → loc' = loc).
Proof.
  intros Hall Hroot Hreach Himp Hnone.
  pose proof (sourceOrder_of_spec (m_sources st)) as H. unfold resolveImports.
  destruct (sourceOrder_of (m_sources st)) as [order|e| |]; simpl; [| |done..].
  - destruct H as (_ & _ & Hcl & Hroots & _).
    assert (HA : A ∈ order) by (eapply closed_reach; eauto).
    destruct (Hcl A id loc HA Himp) as [[s Hs] _]. congruence.
  - destruct H as (r' & Hr' & A' & id' & loc' & Hreach' & Himp' & Hnone' & ->).
    exists r', A', id', loc'. split_and!; try done.
    intros Huniq. by eapply Huniq.
Qed.

Lemma resolveImports_missing_import_witness :
  resolveImports (stack_of missing_sources)
    = Throw (ParserError (mkLoc 0 14 "A") "Source not found.") ∧
  ∃ r' A' id' loc',
    is_root missing_sources r' ∧ rtc (imports missing_sources) r' A' ∧
    has_import missing_sources A' id' loc' ∧ missing_sources !! id' = None ∧
    resolveImports (stack_of missing_sources)
      = Throw (ParserError loc' "Source not found.") ∧
    ((∀ A2 id2 loc2, has_import missing_sources A2 id2 loc2 →
        missing_sources !! id2 = None → loc2 = mkLoc 0 14 "A") →
     loc' = mkLoc 0 14 "A").
Proof.
  split; [vm_compute; reflexivity|].
  apply (resolveImports_missing_import (stack_of missing_sources) "A" "A" "Nope"
           (mkLoc 0 14 "A")).
  - intros n s Hs. simpl in Hs. unfold missing_sources in Hs.
    apply lookup_singleton_Some in Hs as [_ <-]. by eexists.
  - eexists. split; [by vm_compute|reflexivity].
  - apply rtc_refl.
  - eexists _, _. split_and!; [by vm_compute|reflexivity|apply list_elem_of_here].
  - by vm_compute.
Defined.

Section ParseProperties.

Variable Resolver : Type.
Variable Parser_parse : Scanner → Outcome SourceUnit.
Variable newResolver : Resolver.
Variable registerDeclarations : Resolver → SourceUnit → Outcome Resolver.
Variable resolveNamesAndTypes : Resolver → ContractDefinition → Outcome Resolver.
Variable checkTypeRequirements : Resolver → ContractDefinition → Outcome Resolver.

Lemma parse_sources_returns (l : list (string * Source)) :
  ∀ m : gmap string Source,
    (∀ n s, (n, s) ∈ l → ∃ u, Parser_parse (Scanner_reset (scanner s)) = Return u) →
    ∃ m', parse_sources Parser_parse l m = (m', Return tt).
Proof.
  induction l as [|[n s] l IH]; intros m Hok; simpl; [by eexists|].
  destruct (Hok n s) as [u Hu]; [apply list_elem_of_here|]. rewrite Hu.
  apply IH. intros n' s' Hel. apply (Hok n'). by apply list_elem_of_further.
Qed.

Lemma parse_sources_parsed (l : list (string * Source)) :
  ∀ (m m' : gmap string Source),
    parse_sources Parser_parse l m = (m', Return tt) →
    ∀ n s', m' !! n = Some s' →
      is_Some (ast s') ∨ ((n ∉ l.*1) ∧ m !! n = Some s').
Proof.
  induction l as [|[k s] l IH]; intros m m' Hrun n s' Hn; simpl in Hrun.
  { injection Hrun as <-. right. split; [|done]. apply not_elem_of_nil. }
  destruct (Parser_parse (Scanner_reset (scanner s))) as [u|e| |] eqn:Hu;
    [|done..].
  destruct (IH _ _ Hrun n s' Hn) as [Hp|[Hnl Hm]]; [by left|].
  destruct (decide (n = k)) as [->|Hne].
  - rewrite lookup_insert_eq in Hm. injection Hm as <-. left. by eexists.
  - rewrite lookup_insert_ne in Hm by done. right. split; [|done].
    simpl. rewrite not_elem_of_cons. done.
Qed.

Lemma parse_sources_all_parsed (m m' : gmap string Source) :
  parse_sources Parser_parse (map_iter m) m = (m', Return tt) → all_parsed m'.
Proof.
  intros Hrun n s' Hn.
  destruct (parse_sources_parsed _ _ _ Hrun n s' Hn) as [Hp|[Hnl Hm]]; [done|].
  exfalso. apply Hnl. apply list_elem_of_fmap. exists (n, s'). split; [done|].
  by apply elem_of_map_iter.
Qed.

Lemma register_units_returns (units : list SourceUnit) :
  (∀ r u, ∃ r', registerDeclarations r u = Return r') →
  ∀ r, ∃ r', register_units Resolver registerDeclarations units r = Return r'.
Proof.
  intros Hok. induction units as [|u units IH]; intros r; simpl; [by eexists|].
  destruct (Hok r u) as [r1 ->]. simpl. apply IH.
Qed.

Lemma for_contracts_returns (step : Resolver → ContractDefinition → Outcome Resolver)
    (nodes : list ASTNode) :
  (∀ r c, ∃ r', step r c = Return r') →
  ∀ r cs, ∃ cs' r', for_contracts Resolver step nodes r cs = (cs', Return r').
Proof.
  intros Hok. induction nodes as [|[id loc|c|] nodes IH]; intros r cs; simpl;
    [by eexists _, _|apply IH| |apply IH].
  destruct (Hok r c) as [r1 ->]. apply IH.
Qed.

Lemma in_order_some (srcs : gmap string Source) (order : list string) :
  all_parsed srcs → (∀ x, x ∈ order → is_Some (srcs !! x)) →
  is_Some (units_in_order srcs order) ∧ is_Some (nodes_in_order srcs order).
Proof.
  intros Hall. induction order as [|x order IH]; intros Hdom; simpl; [by split; eexists|].
  destruct (Hdom x) as [s Hs]; [apply list_elem_of_here|]. rewrite Hs. simpl.
  destruct (Hall x s Hs) as [u Hu]. rewrite Hu. simpl.
  destruct IH as [[us ->] [ns ->]]; [|by split; eexists].
  intros y Hy. apply Hdom. by apply list_elem_of_further.
Qed.

(** C5: with collaborators that accept their input and every import naming
    a source of the map, [parse] returns without an exception and sets the
    flag, whether or not the imports form a cycle; the order it leaves has
    no source twice and holds every source that a root reaches. *)
Theorem parse_tolerates_cycles (st : CompilerStack) :
  (∀ n s, m_sources st !! n = Some s →
     ∃ u, Parser_parse (Scanner_reset (scanner s)) = Return u) →
  (∀ r u, ∃ r', registerDeclarations r u = Return r') →
  (∀ r c, ∃ r', resolveNamesAndTypes r c = Return r') →
  (∀ r c, ∃ r', checkTypeRequirements r c = Return r') →
  imports_resolved (parse_sources Parser_parse (map_iter (m_sources st)) (m_sources st)).1 →
  ∃ st',
    parse Resolver Parser_parse newResolver registerDeclarations
      resolveNamesAndTypes checkTypeRequirements st = (st', Return tt) ∧
    m_parseSuccessful st' = true ∧
    m_sources st' = (parse_sources Parser_parse (map_iter (m_sources st)) (m_sources st)).1 ∧
    NoDup (m_sourceOrder st') ∧
    ∀ r A, is_root (m_sources st') r → rtc (imports (m_sources st')) r A →
           A ∈ m_sourceOrder st'.
Proof.
  intros Hparser Hreg Hres Hchk Himports. unfold parse.
  destruct (parse_sources_returns (map_iter (m_sources st)) (m_sources st))
    as [srcs Hsrcs].
  { intros n s Hel. apply (Hparser n). by apply elem_of_map_iter. }
  rewrite Hsrcs in Himports |- *. simpl in Himports.
  pose proof (parse_sources_all_parsed _ _ Hsrcs) as Hall.
  destruct (sourceOrder_of_returns srcs Hall Himports) as [order Horder].
  pose proof (sourceOrder_of_spec srcs) as Hspec. rewrite Horder in Hspec.
  destruct Hspec as (Hnd & _ & Hcl & Hroots & Hdom).
  unfold resolveImports. simpl. rewrite Horder. simpl.
  destruct (in_order_some srcs order Hall Hdom) as [[units ->] [nodes ->]].
  destruct (register_units_returns units Hreg newResolver) as [r1 ->].
  destruct (for_contracts_returns resolveNamesAndTypes nodes Hres r1 (m_contracts st))
    as (cs1 & r2 & ->).
  destruct (for_contracts_returns checkTypeRequirements nodes Hchk r2 cs1)
    as (cs2 & r3 & ->).
  eexists. split; [reflexivity|]. simpl. split_and!; [done..|].
  intros r A Hr Hreach. eapply closed_reach; eauto.
Qed.

End ParseProperties.

Lemma cyclic_stack_sources :
  m_sources cyclic_stack =
  {[ "A" := mkSource (mkScanner (import_text "B") "A") None false;
     "B" := mkSource (mkScanner (import_text "A") "B") None false ]}.
Proof. vm_compute. reflexivity. Defined.

Lemma cyclic_stack_parsed :
  (parse_sources sample_parser (map_iter (m_sources cyclic_stack))
     (m_sources cyclic_stack)).1 = cyclic_sources.
Proof. vm_compute. reflexivity. Defined.

Lemma cyclic_sources_resolved : imports_resolved cyclic_sources.
Proof.
  intros A id loc (s & nodes & Hs & Hast & Hel). unfold cyclic_sources in Hs.
  apply lookup_insert_Some in Hs as [[<- <-]|[_ Hs]].
  - injection Hast as <-. apply list_elem_of_singleton in Hel.
    injection Hel as -> ->. by vm_compute; eexists.
  - apply lookup_singleton_Some in Hs as [<- <-].
    injection Hast as <-. apply list_elem_of_singleton in Hel.
    injection Hel as -> ->. by vm_compute; eexists.
Defined.

Lemma parse_tolerates_cycles_witness :
  parse unit sample_parser tt accept accept accept cyclic_stack
    = (mkStack true cyclic_sources ["B"; "A"] ∅, Return tt) ∧
  ∃ st',
    parse unit sample_parser tt accept accept accept cyclic_stack = (st', Return tt) ∧
    m_parseSuccessful st' = true ∧
    m_sources st' = (parse_sources sample_parser (map_iter (m_sources cyclic_stack))
                       (m_sources cyclic_stack)).1 ∧
    NoDup (m_sourceOrder st') ∧
    ∀ r A, is_root (m_sources st') r → rtc (imports (m_sources st')) r A →
           A ∈ m_sourceOrder st'.
Proof.
  split; [vm_compute; reflexivity|].
  apply (parse_tolerates_cycles unit sample_parser tt accept accept accept cyclic_stack).
  - intros n s Hs. rewrite cyclic_stack_sources in Hs.
    apply lookup_insert_Some in Hs as [[<- <-]|[_ Hs]].
    + eexists. vm_compute. reflexivity.
    + apply lookup_singleton_Some in Hs as [<- <-]. eexists. vm_compute. reflexivity.
  - intros r u. by exists tt.
  - intros r c. by exists tt.
  - intros r c. by exists tt.
  - rewrite cyclic_stack_parsed. exact cyclic_sources_resolved.
Defined.

(** ** The source registry (claim C8) *)

Lemma store_source_lookup (name content : string) (isLib : bool)
    (srcs : gmap string Source) :
  ∃ s, store_source name content isLib srcs !! name = Some s ∧
       sc_source (scanner s) = content ∧ isLibrary s = isLib.
Proof. unfold store_source. rewrite lookup_insert_eq. by eexists. Qed.

Lemma store_source_other (name content other : string) (isLib : bool)
    (srcs : gmap string Source) :
  other ≠ name → store_source name content isLib srcs !! other = srcs !! other.
Proof. intros Hne. unfold store_source. by rewrite lookup_insert_ne. Qed.

Lemma reset_sources_text (srcs : gmap string Source) (n : string) :
  (λ s, sc_source (scanner s)) <$> reset_sources srcs !! n
  = (λ s, sc_source (scanner s)) <$> srcs !! n.
Proof. unfold reset_sources. rewrite lookup_fmap. by destruct (srcs !! n). Qed.

(** C8: [addSource] returns true exactly when the name was in the source
    map before the call (so a second call with the name returns true, and
    the first one false for a new name); afterwards the name holds the new
    content, and every other source has the text it had. *)
Theorem addSource_returns_existed (name content : string) (isLib : bool)
    (st : CompilerStack) :
  let r := addSource name content isLib st in
  (r.2 = true ↔ is_Some (m_sources st !! name)) ∧
  (m_sources st !! name = None → r.2 = false) ∧
  (∀ content2 isLib2, (addSource name content2 isLib2 r.1).2 = true) ∧
  (∃ s, m_sources r.1 !! name = Some s ∧ sc_source (scanner s) = content ∧
        isLibrary s = isLib) ∧
  (∀ other, other ≠ name →
     (λ s, sc_source (scanner s)) <$> m_sources r.1 !! other
     = (λ s, sc_source (scanner s)) <$> m_sources st !! other).
Proof.
  simpl. unfold count. split_and!.
  - apply bool_decide_eq_true.
  - intros Hnone. apply bool_decide_eq_false. rewrite Hnone. by intros [? ?].
  - intros content2 isLib2. apply bool_decide_eq_true.
    destruct (store_source_lookup name content isLib (reset_sources (m_sources st)))
      as (s & Hs & _). by exists s.
  - apply store_source_lookup.
  - intros other Hne. rewrite store_source_other by done. apply reset_sources_text.
Qed.

Lemma addSource_returns_existed_witness :
  (addSource "n" "c1" false (newCompilerStack false)).2 = false ∧
  (addSource "n" "c2" false (addSource "n" "c1" false (newCompilerStack false)).1).2 = true.
Proof.
  pose proof (addSource_returns_existed "n" "c1" false (newCompilerStack false))
    as (_ & Hfirst & Hsecond & _).
  split; [by apply Hfirst|apply Hsecond].
Defined.

(** ** The IR generation context (claims C4, C9) *)

(** C9: [storageLocationOfStateVariable] returns the pair stored for a
    declaration for which [isStateVariable] holds, which is the pair
    [addStateVariable] recorded for it, and raises InternalCompilerError
    (the failed assertion) for every other declaration. *)
Theorem storageLocationOfStateVariable_spec (ctx : IRGen.IRGenerationContext)
    (decl : IRGen.VariableDeclarationPtr) :
  (IRGen.isStateVariable ctx decl = true →
     ∃ loc, IRGen.m_stateVariables ctx !! decl = Some loc ∧
            IRGen.storageLocationOfStateVariable ctx decl = Return loc) ∧
  (IRGen.isStateVariable ctx decl = false →
     IRGen.storageLocationOfStateVariable ctx decl
     = Throw (InternalCompilerError EmptyString)) ∧
  (∀ slot offset,
     IRGen.isStateVariable (IRGen.addStateVariable ctx decl slot offset) decl = true ∧
     IRGen.storageLocationOfStateVariable (IRGen.addStateVariable ctx decl slot offset) decl
     = Return (slot, offset)).
Proof.
  unfold IRGen.storageLocationOfStateVariable, IRGen.isStateVariable. split_and!.
  - intros H. rewrite H. simpl. apply bool_decide_eq_true in H as [loc Hloc].
    exists loc. by rewrite Hloc.
  - intros H. by rewrite H.
  - intros slot offset. simpl. rewrite lookup_insert_eq.
    rewrite bool_decide_eq_true_2 by (by eexists). done.
Qed.

Lemma storageLocationOfStateVariable_spec_witness :
  IRGen.storageLocationOfStateVariable
    (IRGen.addStateVariable (IRGen.mkContext ∅ false) 7%N 3 16) 7%N = Return (3, 16) ∧
  IRGen.storageLocationOfStateVariable (IRGen.mkContext ∅ false) 7%N
    = Throw (InternalCompilerError EmptyString).
Proof.
  pose proof (storageLocationOfStateVariable_spec (IRGen.mkContext ∅ false) 7%N)
    as (_ & Hnot & Hadd).
  split; [apply Hadd|apply Hnot; reflexivity].
Defined.

(** Away from the pair of two null pointers the comparator is the order
    the claim describes. *)
Lemma AscendingFunctionIDCompare_elsewhere (f1 f2 : option IRGen.FunctionDefinition) :
  ¬ (f1 = None ∧ f2 = None) →
  (IRGen.AscendingFunctionIDCompare f1 f2 = true ↔ nulls_first_ascending f1 f2).
Proof.
  intros Hnot. unfold nulls_first_ascending.
  destruct f1 as [a|], f2 as [b|]; simpl.
  - rewrite Z.ltb_lt. split.
    + intros Hlt. right. by exists a, b.
    + intros [[? _]|(a' & b' & [= <-] & [= <-] & Hlt)]; done.
  - split; [done|]. intros [[? _]|(a' & b' & _ & ? & _)]; done.
  - split; [by left|done].
  - by destruct Hnot.
Qed.

(** C4 at the input where the code leaves it: two null pointers compare
    as less, though neither sorts strictly before the other. *)
Theorem AscendingFunctionIDCompare_null_null :
  IRGen.AscendingFunctionIDCompare None None = true ∧
  ¬ nulls_first_ascending None None.
Proof.
  split; [reflexivity|].
  intros [[_ H]|(a & b & H & _)]; done.
Qed.

(** ** Contract lookup (claims C2, C3, C7) *)

Lemma contract_runtimeObject (name : string) (st : CompilerStack) (c : Contract) :
  contract name st = Return c → runtimeObject name st = Return (runtimeObject_ c).
Proof. intros H. unfold runtimeObject. by rewrite H. Qed.

(** C3: for a name whose record exists, [contractCodeHash] is the zero
    hash when the runtime bytecode is empty or has link references, and the
    hash of the bytecode otherwise; so, for a hash function that gives zero
    on no non-empty input, it is zero exactly in the first case. *)
Theorem contractCodeHash_spec (sha3 : list Z → Z) (name : string)
    (st : CompilerStack) (c : Contract) :
  contract name st = Return c →
  let obj := runtimeObject_ c in
  (bytecode obj = [] ∨ linkReferences obj ≠ ∅ →
     contractCodeHash sha3 name st = Return h256_zero) ∧
  (¬ (bytecode obj = [] ∨ linkReferences obj ≠ ∅) →
     contractCodeHash sha3 name st = Return (sha3 (bytecode obj))) ∧
  ((∀ b, b ≠ [] → sha3 b ≠ h256_zero) →
     (contractCodeHash sha3 name st = Return h256_zero ↔
      bytecode obj = [] ∨ linkReferences obj ≠ ∅)).
Proof.
  intros Hc obj. unfold contractCodeHash.
  rewrite (contract_runtimeObject name st c Hc). simpl. fold obj.
  assert (Hbranch :
    bool_decide (bytecode obj = []) || negb (bool_decide (linkReferences obj = ∅)) = true
    ↔ bytecode obj = [] ∨ linkReferences obj ≠ ∅).
  { rewrite orb_true_iff, negb_true_iff, bool_decide_eq_true, bool_decide_eq_false.
    done. }
  destruct (bool_decide (bytecode obj = []) || negb (bool_decide (linkReferences obj = ∅)))
    eqn:Hb.
  - assert (Hcond : bytecode obj = [] ∨ linkReferences obj ≠ ∅) by (by apply Hbranch).
    split_and!; [done|by intros []|done].
  - assert (Hcond : ¬ (bytecode obj = [] ∨ linkReferences obj ≠ ∅)).
    { intros H. apply Hbranch in H. done. }
    split_and!; [done|done|].
    intros Hsha. split; [|done]. intros [= Hz]. exfalso.
    apply (Hsha (bytecode obj)); [|done]. intros He. apply Hcond. by left.
Qed.

Lemma contractCodeHash_spec_witness :
  contractCodeHash sample_hash "A" two_contract_stack = Return h256_zero ∧
  contractCodeHash sample_hash "B" two_contract_stack = Return (sample_hash [96; 2]) ∧
  (contractCodeHash sample_hash "B" two_contract_stack = Return h256_zero ↔
   [96; 2] = [] ∨ (∅ : gmap N string) ≠ ∅).
Proof.
  assert (HA : contract "A" two_contract_stack
               = Return (mkContract (Some (mkContractDefinition 2 "A" true)) None
                           (mkLinkerObject [96; 1] ∅)
                           (mkLinkerObject [96; 1] {[ 1%N := "L" ]}) emptyObject
                           None None None None)) by (vm_compute; reflexivity).
  assert (HB : contract "B" two_contract_stack
               = Return (mkContract (Some (mkContractDefinition 3 "B" true)) None
                           (mkLinkerObject [96; 2] ∅) (mkLinkerObject [96; 2] ∅)
                           emptyObject None None None None)) by (vm_compute; reflexivity).
  destruct (contractCodeHash_spec sample_hash "A" two_contract_stack _ HA) as (HA1 & _).
  destruct (contractCodeHash_spec sample_hash "B" two_contract_stack _ HB)
    as (_ & HB2 & HB3).
  split_and!.
  - apply HA1. right. simpl. apply insert_non_empty.
  - apply HB2. simpl. intros [H|H]; [discriminate H|exact (H eq_refl)].
  - apply HB3. intros b Hb. unfold sample_hash, h256_zero. lia.
Defined.

Lemma contract_empty_map (name : string) (st : CompilerStack) :
  m_contracts st = ∅ →
  contract name st = Throw (CompilerError "No compiled contracts found.").
Proof.
  intros He. unfold contract, contract_entry.
  by rewrite bool_decide_eq_true_2.
Qed.

(** C2, as amended: while the parse-successful flag is false, contractNames,
    metadata, interface and solidityInterface raise CompilerError
    Parsing-was-not-successful.  The queries object, runtimeObject,
    cloneObject and contractDefinition do not test the flag: while the table
    of contracts is empty they raise CompilerError No-compiled-contracts-found,
    and every reset and every addSource leaves the flag false and the table
    empty. *)
Theorem queries_before_parse
    (documentation : ContractDefinition → DocumentationType → Outcome string)
    (st : CompilerStack) :
  (m_parseSuccessful st = false →
     contractNames st = Throw parsingNotSuccessful ∧
     ∀ n t, metadata documentation n t st = Throw parsingNotSuccessful ∧
            interface documentation n st = Throw parsingNotSuccessful ∧
            solidityInterface documentation n st = Throw parsingNotSuccessful) ∧
  (m_contracts st = ∅ →
     ∀ n, object n st = Throw (CompilerError "No compiled contracts found.") ∧
          runtimeObject n st = Throw (CompilerError "No compiled contracts found.") ∧
          cloneObject n st = Throw (CompilerError "No compiled contracts found.") ∧
          contractDefinition n st = Throw (CompilerError "No compiled contracts found.")) ∧
  (∀ keep std, m_parseSuccessful (reset keep std st) = false ∧
               m_contracts (reset keep std st) = ∅) ∧
  (∀ n c l, m_parseSuccessful (addSource n c l st).1 = false ∧
            m_contracts (addSource n c l st).1 = ∅).
Proof.
  split_and!.
  - intros Hflag. unfold interface, solidityInterface, metadata, contractNames.
    rewrite Hflag. done.
  - intros He n. unfold object, runtimeObject, cloneObject, contractDefinition.
    rewrite (contract_empty_map n st He). done.
  - done.
  - done.
Qed.

Lemma queries_before_parse_witness :
  contractNames (newCompilerStack true) = Throw parsingNotSuccessful ∧
  object "coin" (newCompilerStack true)
    = Throw (CompilerError "No compiled contracts found.").
Proof.
  pose proof (queries_before_parse no_documentation (newCompilerStack true))
    as (Hflag & Hempty & _).
  split.
  - apply Hflag. vm_compute. reflexivity.
  - apply Hempty. vm_compute. reflexivity.
Defined.

(** C2, as stated, fails: on a driver that has parsed nothing the flag is
    false, and [object] raises a CompilerError with another message. *)
Lemma object_before_parse_counterexample :
  m_parseSuccessful (newCompilerStack false) = false ∧
  run_query no_documentation (Q_object "A") (newCompilerStack false)
    = Throw (CompilerError "No compiled contracts found.") ∧
  run_query no_documentation (Q_object "A") (newCompilerStack false)
    ≠ Throw parsingNotSuccessful.
Proof. split_and!; [reflexivity|reflexivity|discriminate]. Qed.

(** A parse that the type checker aborts leaves the flag false and the
    contracts registered so far in the table; [object] then returns. *)
Lemma object_after_failed_parse :
  let st := (parse unit contract_parser tt accept accept reject
               (setSource "A" (newCompilerStack false))).1 in
  m_parseSuccessful st = false ∧ object "A" st = Return emptyObject.
Proof. vm_compute. split; reflexivity. Qed.

Lemma scan_contracts_last (nodes : list ASTNode) (contractName : string) :
  scan_contracts nodes contractName
  = default contractName (last (contract_names_of nodes)).
Proof.
  revert contractName. induction nodes as [|[id loc|c|] nodes IH]; intros cn; simpl;
    [done|apply IH| |apply IH].
  rewrite IH. unfold contract_names_of. rewrite last_cons.
  by destruct (last _).
Qed.

Lemma scan_sources_last (l : list (string * Source)) :
  ∀ (names : list string) (contractName : string),
    user_contracts l = Some names →
    scan_sources l contractName = Return (default contractName (last names)).
Proof.
  induction l as [|[name src] l IH]; intros names cn Hnames; simpl in *.
  { by injection Hnames as <-. }
  destruct (user_contracts l) as [more|] eqn:Hmore; [|done]. simpl in Hnames.
  destruct (isStandardSource name).
  { injection Hnames as <-. by apply IH. }
  destruct (ast src) as [nodes|]; [|done]. simpl in Hnames. injection Hnames as <-.
  rewrite (IH more _ eq_refl), scan_contracts_last, last_app.
  by destruct (last more).
Qed.

(** C7, as amended: with at least one contract in the table, [contract]
    called with the empty name falls back to the last contract that the
    user-supplied sources (those not named like a standard source) define,
    in the key order of the source map, and returns the record of that
    contract if the table holds one.  When that contract has no record, or
    when no user-supplied source defines a contract and none is named by
    the empty string, the lookup raises CompilerError. *)
Theorem contract_empty_name_fallback (st : CompilerStack) (names : list string) :
  m_contracts st ≠ ∅ →
  user_contracts (map_iter (m_sources st)) = Some names →
  (∀ c record, last names = Some c → m_contracts st !! c = Some record →
     contract EmptyString st = Return record) ∧
  (∀ c, last names = Some c → m_contracts st !! c = None →
     contract EmptyString st
     = Throw (CompilerError ("Contract " +:+ EmptyString +:+ " not found."))) ∧
  (last names = None → m_contracts st !! EmptyString = None →
     contract EmptyString st
     = Throw (CompilerError ("Contract " +:+ EmptyString +:+ " not found."))).
Proof.
  intros Hne Hnames.
  assert (Hrun : contract EmptyString st =
            match m_contracts st !! default EmptyString (last names) with
            | Some record => Return record
            | None => Throw (CompilerError ("Contract " +:+ EmptyString +:+ " not found."))
            end).
  { unfold contract, contract_entry.
    rewrite bool_decide_eq_false_2 by done.
    rewrite bool_decide_eq_true_2 by done.
    rewrite (scan_sources_last _ names EmptyString Hnames). simpl.
    by destruct (m_contracts st !! default EmptyString (last names)). }
  split_and!.
  - intros c record Hlast Hrec. rewrite Hrun, Hlast. simpl. by rewrite Hrec.
  - intros c Hlast Hrec. rewrite Hrun, Hlast. simpl. by rewrite Hrec.
  - intros Hlast Hrec. rewrite Hrun, Hlast. simpl. by rewrite Hrec.
Qed.

Lemma contract_empty_name_fallback_witness :
  user_contracts (map_iter (m_sources two_contract_stack)) = Some ["A"; "B"] ∧
  contract EmptyString two_contract_stack
  = Return (mkContract (Some (mkContractDefinition 3 "B" true)) None
              (mkLinkerObject [96; 2] ∅) (mkLinkerObject [96; 2] ∅) emptyObject
              None None None None).
Proof.
  assert (Hnames : user_contracts (map_iter (m_sources two_contract_stack))
                   = Some ["A"; "B"]) by (vm_compute; reflexivity).
  split; [exact Hnames|].
  destruct (contract_empty_name_fallback two_contract_stack ["A"; "B"]) as (Hfound & _).
  - simpl. apply insert_non_empty.
  - exact Hnames.
  - apply (Hfound "B"); [reflexivity|]. vm_compute. reflexivity.
Defined.

(** C7, as stated, fails: a source added as a library that nothing imports
    is parsed but not listed, so its contract has no record; the fallback
    still picks it, being the last one in the source map, and with the
    contract "A" in the table the lookup raises CompilerError. *)
Lemma contract_empty_name_counterexample :
  m_parseSuccessful unlisted_library_stack = true ∧
  m_sourceOrder unlisted_library_stack = ["a"] ∧
  m_contracts unlisted_library_stack
  = {[ "A" := registered_record (mkContractDefinition 1 "A" true) ]} ∧
  user_contracts (map_iter (m_sources unlisted_library_stack)) = Some ["A"; "Z"] ∧
  contract EmptyString unlisted_library_stack
  = Throw (CompilerError ("Contract " +:+ EmptyString +:+ " not found.")) ∧
  (∀ record, contract EmptyString unlisted_library_stack ≠ Return record).
Proof.
  assert (Hthrow : contract EmptyString unlisted_library_stack
            = Throw (CompilerError ("Contract " +:+ EmptyString +:+ " not found.")))
    by (vm_compute; reflexivity).
  split_and!; try (vm_compute; reflexivity).
  intros record. rewrite Hthrow. discriminate.
Qed.

(** The order walked is the key order of the source map, not the source
    order: "a" imports "b", so the source order ends with "a", and the
    fallback returns the contract of "b". *)
Lemma contract_empty_name_key_order :
  m_sourceOrder import_first_stack = ["b"; "a"] ∧
  contract EmptyString import_first_stack
  = Return (registered_record (mkContractDefinition 2 "B" true)).
Proof. split; vm_compute; reflexivity. Qed.

(** With contracts in the table but none defined by a user-supplied source,
    the fallback finds no name and the lookup fails. *)
Lemma contract_empty_name_nothing_found :
  contract EmptyString import_only_stack
  = Throw (CompilerError ("Contract " +:+ EmptyString +:+ " not found.")).
Proof. vm_compute. reflexivity. Qed.

(** ** The relative size metric (claim C10) *)


(** *** Doubles *)
























(** The rounding on a run: 150/200 scaled by 1000 is the double 750
    exactly, and 1/3 scaled by 1000 is a double just above 333 that is
    rounded down. *)
Lemma RelativeProgramSize_rounds_to_nearest :
  Phaser.RelativeProgramSize_evaluate N N 0%N sample_optimise id (sample_metric 3%N) 2%N
    = ([Phaser.Optimised 0%N; Phaser.Optimised 2%N; Phaser.Divided 1%N 3%N], Some 333%N) ∧
  Phaser.RelativeProgramSize_evaluate N N 0%N sample_optimise id (sample_metric 3%N) 1%N
    = ([Phaser.Optimised 0%N; Phaser.Optimised 1%N; Phaser.Divided 2%N 3%N], Some 667%N).
Proof. split; vm_compute; reflexivity. Qed.

(** The quotient is taken in [double]: 201/200 scaled by 100 gives 100,
    where the exact value 100.5 would round to 101. *)
Lemma RelativeProgramSize_double_rounding :
  Phaser.RelativeProgramSize_evaluate N N 0%N sample_optimise id
    (Phaser.mkRelative N (Phaser.mkMetric N 200%N 1) 2%N) 0%N
    = ([Phaser.Optimised 0%N; Phaser.Optimised 0%N; Phaser.Divided 200%N 200%N], Some 100%N) ∧
  Phaser.to_size_t
    (Phaser.round (Phaser.fmul (Phaser.fdiv (Phaser.of_integer 201) (Phaser.of_integer 200))
                     (Phaser.of_integer 100))) = Some 100%N.
Proof. split; vm_compute; reflexivity. Qed.

(** * Further properties of the embedded code *)

(** ** What the search lists *)

Section Listed.

Variable srcs : gmap string Source.

Lemma visit_imports_new (name : string)
    (rec : string → Source → DfsState → Outcome DfsState) :
  (∀ id s st st', srcs !! id = Some s → rec id s st = Return st' →
     ∃ new, st'.2 = (st.2 ++ new)%list ∧
            ∀ x, x ∈ new → rtc (imports srcs) id x ∧ has_tree srcs x) →
  ∀ (rest : list ASTNode) (st st' : DfsState),
    (∀ id loc, ImportDirective id loc ∈ rest → has_import srcs name id loc) →
    visit_imports rec srcs rest st = Return st' →
    ∃ new, st'.2 = (st.2 ++ new)%list ∧
           ∀ x, x ∈ new → tc (imports srcs) name x ∧ has_tree srcs x.
Proof.
  intros Hrec rest. induction rest as [|node rest IH]; intros st st' Hnodes Hrun.
  { simpl in Hrun. injection Hrun as <-. exists []. split; [by rewrite app_nil_r|].
    intros x Hx. by apply elem_of_nil in Hx. }
  assert (Hrest : ∀ id loc, ImportDirective id loc ∈ rest →
                            has_import srcs name id loc).
  { intros id loc Hel. apply Hnodes. by apply list_elem_of_further. }
  destruct node as [id loc|c|]; simpl in Hrun; [|by eapply IH..].
  destruct (srcs !! id) as [s|] eqn:Hid; [|done].
  destruct (rec id s st) as [st1|e| |] eqn:Hcall; simpl in Hrun; [|done..].
  destruct (Hrec id s st st1 Hid Hcall) as (new1 & Ho1 & Hnew1).
  destruct (IH st1 st' Hrest Hrun) as (new2 & Ho2 & Hnew2).
  exists (new1 ++ new2)%list. split; [by rewrite Ho2, Ho1, app_assoc|].
  intros x [Hx|Hx]%elem_of_app; [|by apply Hnew2].
  destruct (Hnew1 x Hx) as [Hreach Hp]. split; [|done].
  eapply tc_rtc_r; [|exact Hreach]. apply tc_once.
  eapply imports_edge; [|exact Hid]. apply Hnodes, list_elem_of_here.
Qed.

(** Whatever one call of the lambda appends is reached from the source
    the call was made for, and has a tree. *)
Lemma toposort_new (fuel : nat) :
  ∀ (name : string) (src : Source) (st st' : DfsState),
    srcs !! name = Some src → toposort fuel srcs name src st = Return st' →
    ∃ new, st'.2 = (st.2 ++ new)%list ∧
           ∀ x, x ∈ new → rtc (imports srcs) name x ∧ has_tree srcs x.
Proof.
  induction fuel as [|fuel IH]; intros name src st st' Hsrc Hrun; [done|].
  simpl in Hrun. case_bool_decide as Hseen.
  { injection Hrun as <-. exists []. split; [by rewrite app_nil_r|].
    intros x Hx. by apply elem_of_nil in Hx. }
  destruct (ast src) as [nodes|] eqn:Hast; [|done].
  destruct (visit_imports (toposort fuel srcs) srcs nodes ({[name]} ∪ st.1, st.2))
    as [st1|e| |] eqn:Hloop; simpl in Hrun; [|done..].
  injection Hrun as <-.
  destruct (visit_imports_new name (toposort fuel srcs) IH nodes _ _
              (λ id loc Hel, ex_intro _ src (ex_intro _ nodes (conj Hsrc (conj Hast Hel))))
              Hloop) as (new & Ho & Hnew).
  simpl in Ho. exists (new ++ [name])%list. simpl. split; [by rewrite Ho, app_assoc|].
  intros x [Hx|Hx]%elem_of_app.
  - destruct (Hnew x Hx) as [Hreach Hp]. split; [by apply tc_rtc|done].
  - apply list_elem_of_singleton in Hx. subst x. split; [apply rtc_refl|].
    by exists src, nodes.
Qed.

Lemma visit_roots_new (fuel : nat) (l : list (string * Source)) :
  ∀ st st' : DfsState,
    (∀ name src, (name, src) ∈ l → srcs !! name = Some src) →
    visit_roots fuel srcs l st = Return st' →
    ∃ new, st'.2 = (st.2 ++ new)%list ∧
           ∀ x, x ∈ new →
             (∃ r, is_root srcs r ∧ rtc (imports srcs) r x) ∧ has_tree srcs x.
Proof.
  induction l as [|[name src] l IH]; intros st st' Hl Hrun; simpl in Hrun.
  { injection Hrun as <-. exists []. split; [by rewrite app_nil_r|].
    intros x Hx. by apply elem_of_nil in Hx. }
  assert (Hl' : ∀ n s, (n, s) ∈ l → srcs !! n = Some s).
  { intros n s Hel. apply Hl. by apply list_elem_of_further. }
  destruct (isLibrary src) eqn:Hlib; [by eapply IH|].
  destruct (toposort fuel srcs name src st) as [st1|e| |] eqn:Hcall;
    simpl in Hrun; [|done..].
  assert (Hsrc : srcs !! name = Some src) by (apply Hl, list_elem_of_here).
  destruct (toposort_new fuel name src st st1 Hsrc Hcall) as (new1 & Ho1 & Hnew1).
  destruct (IH st1 st' Hl' Hrun) as (new2 & Ho2 & Hnew2).
  exists (new1 ++ new2)%list. split; [by rewrite Ho2, Ho1, app_assoc|].
  intros x [Hx|Hx]%elem_of_app; [|by apply Hnew2].
  destruct (Hnew1 x Hx) as [Hreach Hp]. split; [|done].
  exists name. split; [by exists src|done].
Qed.

Lemma sourceOrder_of_listed (order : list string) :
  sourceOrder_of srcs = Return order →
  ∀ x, x ∈ order → (∃ r, is_root srcs r ∧ rtc (imports srcs) r x) ∧ has_tree srcs x.
Proof.
  unfold sourceOrder_of. intros Hrun.
  destruct (visit_roots (S (size srcs)) srcs (map_iter srcs) (∅, []))
    as [st'|e| |] eqn:Hroots; simpl in Hrun; [|done..].
  injection Hrun as <-.
  destruct (visit_roots_new _ _ _ _
              (λ name src, proj1 (elem_of_map_iter srcs name src)) Hroots)
    as (new & Ho & Hnew).
  simpl in Ho. rewrite Ho. exact Hnew.
Qed.

End Listed.

(** Case analysis on a lookup in a map written out entry by entry. *)
Ltac lookup_cases H :=
  repeat (apply lookup_insert_Some in H as [[<- <-]|[_ H]]);
  [..|try (apply lookup_singleton_Some in H as [<- <-])].

(** X1: when [resolveImports] returns, the order lists exactly the sources
    that some root (a source that is not a library) reaches through
    imports: a library is listed only if a listed source imports it. *)
Theorem resolveImports_lists_reachable (st st' : CompilerStack) (x : string) :
  resolveImports st = Return st' →
  (x ∈ m_sourceOrder st' ↔
   ∃ r, is_root (m_sources st) r ∧ rtc (imports (m_sources st)) r x).
Proof.
  intros Hres. apply resolveImports_inv in Hres as (Hord & _). split.
  - intros Hx. by destruct (sourceOrder_of_listed _ _ Hord x Hx).
  - intros (r & Hr & Hreach).
    pose proof (sourceOrder_of_spec (m_sources st)) as H. rewrite Hord in H.
    destruct H as (_ & _ & Hcl & Hroots & _).
    eapply closed_reach; eauto.
Qed.

Lemma mixed_sources_order :
  resolveImports (stack_of mixed_sources)
  = Return (mkStack false mixed_sources ["Z"; "A"; "c"; "b"] ∅).
Proof. vm_compute. reflexivity. Defined.

Lemma resolveImports_lists_reachable_witness :
  ("lib" ∈ ["Z"; "A"; "c"; "b"] ↔
   ∃ r, is_root mixed_sources r ∧ rtc (imports mixed_sources) r "lib") ∧
  ("Z" ∈ ["Z"; "A"; "c"; "b"] ↔
   ∃ r, is_root mixed_sources r ∧ rtc (imports mixed_sources) r "Z").
Proof.
  split.
  - exact (resolveImports_lists_reachable (stack_of mixed_sources) _ "lib"
             mixed_sources_order).
  - exact (resolveImports_lists_reachable (stack_of mixed_sources) _ "Z"
             mixed_sources_order).
Defined.

Lemma nodes_in_order_some (srcs : gmap string Source) (order : list string) :
  (∀ x, x ∈ order → has_tree srcs x) →
  is_Some (nodes_in_order srcs order) ∧ is_Some (units_in_order srcs order).
Proof.
  induction order as [|x order IH]; intros Hall; simpl; [by split; eexists|].
  destruct (Hall x) as (s & nodes & Hs & Hast); [apply list_elem_of_here|].
  rewrite Hs. simpl. rewrite Hast. simpl.
  destruct IH as [[ns ->] [us ->]]; [|by split; eexists].
  intros y Hy. apply Hall. by apply list_elem_of_further.
Qed.

(** X2: every source that [resolveImports] lists is a source of the map
    with a parsed tree, so the loops of [parse] and [compile] over the
    nodes of the listed sources dereference no null pointer. *)
Theorem resolveImports_listed_have_trees (st st' : CompilerStack) :
  resolveImports st = Return st' →
  (∀ x, x ∈ m_sourceOrder st' → has_tree (m_sources st') x) ∧
  is_Some (nodes_in_order (m_sources st') (m_sourceOrder st')).
Proof.
  intros Hres. apply resolveImports_inv in Hres as (Hord & Hsrcs & _).
  rewrite Hsrcs.
  assert (Hall : ∀ x, x ∈ m_sourceOrder st' → has_tree (m_sources st) x).
  { intros x Hx. by destruct (sourceOrder_of_listed _ _ Hord x Hx). }
  split; [done|]. by apply nodes_in_order_some.
Qed.

Lemma resolveImports_listed_have_trees_witness :
  (∀ x, x ∈ ["Z"; "A"; "c"; "b"] → has_tree mixed_sources x) ∧
  is_Some (nodes_in_order mixed_sources ["Z"; "A"; "c"; "b"]).
Proof.
  exact (resolveImports_listed_have_trees (stack_of mixed_sources) _ mixed_sources_order).
Defined.

(** X3: with every tree parsed, [resolveImports] ends in one of two ways,
    on any import graph: it returns, exactly when every import directive
    of a source that a root reaches names a source of the map, or it
    raises ParserError Source-not-found.  Imports of libraries that no
    root reaches are not looked at. *)
Theorem resolveImports_returns_iff (st : CompilerStack) :
  all_parsed (m_sources st) →
  ((∃ st', resolveImports st = Return st') ∨
   (∃ loc, resolveImports st = Throw (ParserError loc "Source not found."))) ∧
  ((∃ st', resolveImports st = Return st') ↔
   ∀ r A id loc, is_root (m_sources st) r → rtc (imports (m_sources st)) r A →
     has_import (m_sources st) A id loc → is_Some (m_sources st !! id)).
Proof.
  intros Hall. pose proof (sourceOrder_of_spec (m_sources st)) as H.
  unfold resolveImports.
  destruct (sourceOrder_of (m_sources st)) as [order|e| |]; simpl; [| |done..].
  - destruct H as (_ & _ & Hcl & Hroots & _). split; [left; by eexists|].
    split; [|by eexists]. intros _ r A id loc Hr Hreach Himp.
    assert (HA : A ∈ order) by (eapply closed_reach; eauto).
    by destruct (Hcl A id loc HA Himp).
  - destruct H as (r & Hr & A & id & loc & Hreach & Himp & Hnone & ->).
    split; [right; by eexists|]. split; [by intros [? ?]|].
    intros Hres. destruct (Hres r A id loc Hr Hreach Himp) as [s Hs]. congruence.
Qed.

Lemma mixed_sources_parsed : all_parsed mixed_sources.
Proof.
  intros n s Hs. unfold mixed_sources in Hs. lookup_cases Hs; by eexists.
Defined.

Lemma resolveImports_returns_iff_witness :
  (∃ st', resolveImports (stack_of mixed_sources) = Return st') ↔
  ∀ r A id loc, is_root mixed_sources r → rtc (imports mixed_sources) r A →
    has_import mixed_sources A id loc → is_Some (mixed_sources !! id).
Proof.
  exact (proj2 (resolveImports_returns_iff (stack_of mixed_sources) mixed_sources_parsed)).
Defined.

Lemma visit_roots_libraries (fuel : nat) (srcs : gmap string Source)
    (l : list (string * Source)) (st : DfsState) :
  (∀ name src, (name, src) ∈ l → isLibrary src = true) →
  visit_roots fuel srcs l st = Return st.
Proof.
  induction l as [|[name src] l IH]; intros Hl; simpl; [done|].
  rewrite (Hl name src) by apply list_elem_of_here.
  apply IH. intros n s Hel. apply (Hl n). by apply list_elem_of_further.
Qed.

(** X4: when every source of the map is a library there is no root:
    [resolveImports] returns the empty order without looking at any tree,
    whatever the libraries import and whether or not they are parsed. *)
Theorem resolveImports_no_roots (st : CompilerStack) :
  (∀ n s, m_sources st !! n = Some s → isLibrary s = true) →
  resolveImports st
  = Return (mkStack (m_parseSuccessful st) (m_sources st) [] (m_contracts st)).
Proof.
  intros Hlib. unfold resolveImports, sourceOrder_of.
  rewrite visit_roots_libraries; [done|].
  intros name src Hel. apply (Hlib name). by apply elem_of_map_iter.
Qed.

Lemma resolveImports_no_roots_witness :
  resolveImports (newCompilerStack true)
  = Return (mkStack false (m_sources (newCompilerStack true)) [] ∅).
Proof.
  apply (resolveImports_no_roots (newCompilerStack true)).
  intros n s Hs.
  assert (Hall : map_Forall (λ _ s, isLibrary s = true) (m_sources (newCompilerStack true))).
  { apply map_Forall_to_list. vm_compute. repeat constructor. }
  exact (Hall n s Hs).
Defined.

(** ** The source registry *)

Lemma reset_sources_id (srcs : gmap string Source) : reset_sources srcs = srcs.
Proof.
  apply map_eq. intros n. unfold reset_sources. rewrite lookup_fmap.
  destruct (srcs !! n) as [[sc tree lib]|]; reflexivity.
Qed.

(** [reset] without [_keepSources] discards the state it is called on. *)
Lemma setSource_with_any (std : bool) (sourceCode : string) (st1 st2 : CompilerStack) :
  setSource_with std sourceCode st1 = setSource_with std sourceCode st2.
Proof. destruct std; reflexivity. Qed.

(** X5: [setSource] forgets the driver it is called on: the state it
    leaves is the same whatever the state before.  If [reset] does not add
    the standard sources by default, the anonymous source is alone in the
    map; if it does, the map holds the standard sources and the anonymous
    one.  In both cases the anonymous source has the given text, no tree,
    and is no library, and flag, order and contracts are cleared. *)
Theorem setSource_forgets (std : bool) (sourceCode : string) (st1 st2 : CompilerStack) :
  setSource_with std sourceCode st1 = setSource_with std sourceCode st2 ∧
  setSource_with false sourceCode st1
  = mkStack false
      {[ EmptyString := mkSource (mkScanner sourceCode EmptyString) None false ]} [] ∅ ∧
  dom (m_sources (setSource_with true sourceCode st1))
  = {[ EmptyString ]} ∪ list_to_set StandardSources.*1 ∧
  m_sources (setSource_with std sourceCode st1) !! EmptyString
  = Some (mkSource (mkScanner sourceCode EmptyString) None false).
Proof.
  split_and!.
  - apply setSource_with_any.
  - unfold setSource_with, addSource, reset, store_source. simpl.
    rewrite reset_sources_id, lookup_empty. by rewrite insert_empty.
  - change (m_sources (setSource_with true sourceCode st1))
      with (store_source EmptyString sourceCode false
              (reset_sources (m_sources (reset false true st1)))).
    unfold store_source. rewrite dom_insert_L, reset_sources_id.
    f_equal; try (vm_compute; reflexivity).
  - change (m_sources (setSource_with std sourceCode st1))
      with (store_source EmptyString sourceCode false
              (reset_sources (m_sources (reset false std st1)))).
    unfold store_source. rewrite lookup_insert_eq, reset_sources_id.
    replace (m_sources (reset false std st1) !! EmptyString) with (@None Source);
      [reflexivity|].
    destruct std; vm_compute; reflexivity.
Qed.

(** X6: [addSource] changes one entry of the source map and no other: the
    keys afterwards are the old keys and the name, and every other name
    has its entry as it was, tree and library flag included. *)
Theorem addSource_one_entry (name content : string) (isLib : bool)
    (st : CompilerStack) :
  let st' := (addSource name content isLib st).1 in
  dom (m_sources st') = {[name]} ∪ dom (m_sources st) ∧
  ∀ other, other ≠ name → m_sources st' !! other = m_sources st !! other.
Proof.
  simpl. rewrite reset_sources_id. unfold store_source. split.
  - apply dom_insert_L.
  - intros other Hne. by rewrite lookup_insert_ne.
Qed.

(** X7: two [addSource] calls for different names give the same driver
    state in either order. *)
Theorem addSource_commute (n1 c1 n2 c2 : string) (l1 l2 : bool) (st : CompilerStack) :
  n1 ≠ n2 →
  (addSource n2 c2 l2 (addSource n1 c1 l1 st).1).1
  = (addSource n1 c1 l1 (addSource n2 c2 l2 st).1).1.
Proof.
  intros Hne. unfold addSource, reset. simpl. f_equal.
  rewrite !reset_sources_id. unfold store_source.
  rewrite !lookup_insert_ne by done. by apply insert_insert_ne.
Qed.

Lemma addSource_commute_witness :
  (addSource "b" "B" true (addSource "a" "A" false (newCompilerStack false)).1).1
  = (addSource "a" "A" false (addSource "b" "B" true (newCompilerStack false)).1).1.
Proof. by apply addSource_commute. Defined.

(** X8: adding a name a second time overrides the first call altogether:
    the state is the one the second call alone would have given. *)
Theorem addSource_override (name c1 c2 : string) (l1 l2 : bool) (st : CompilerStack) :
  (addSource name c2 l2 (addSource name c1 l1 st).1).1
  = (addSource name c2 l2 st).1.
Proof.
  unfold addSource, reset. simpl. f_equal.
  rewrite !reset_sources_id. unfold store_source.
  rewrite lookup_insert_eq. simpl. by rewrite insert_insert_eq.
Qed.

(** X9: [reset] with [keepSources] leaves the source map as it is and
    clears the flag, the order and the contracts; without it and with
    [addStandardSources] the result is the freshly constructed driver
    with the standard sources, whatever the state was; and a second
    [reset] with the same arguments changes nothing. *)
Theorem reset_spec (st : CompilerStack) (keep std : bool) :
  reset true std st = mkStack false (m_sources st) [] ∅ ∧
  reset false true st = newCompilerStack true ∧
  reset false false st = newCompilerStack false ∧
  reset keep std (reset keep std st) = reset keep std st.
Proof.
  split_and!.
  - unfold reset. by rewrite reset_sources_id.
  - vm_compute. reflexivity.
  - reflexivity.
  - unfold reset. destruct keep, std; simpl; try reflexivity.
    all: by rewrite !reset_sources_id.
Qed.

(** ** Queries on contracts *)

Lemma contract_named (n : string) (st : CompilerStack) (c : Contract) :
  n ≠ EmptyString →
  (contract n st = Return c ↔ m_contracts st !! n = Some c).
Proof.
  intros Hn. unfold contract, contract_entry. case_bool_decide as He.
  { rewrite He, lookup_empty. simpl. split; discriminate. }
  rewrite bool_decide_eq_false_2 by done. simpl.
  destruct (m_contracts st !! n) as [r|]; simpl; split; congruence.
Qed.

(** X10: once parsing has succeeded, [contractNames] returns the names of
    the contract table in ascending order, each once, and these are the
    names [contract] finds: a non-empty name is in the list exactly when
    [contract] returns a record for it. *)
Theorem contractNames_lookup (st : CompilerStack) :
  m_parseSuccessful st = true →
  ∃ names, contractNames st = Return names ∧ NoDup names ∧
    Sorted (λ a b, String.leb a b = true) names ∧
    ∀ n, n ≠ EmptyString → (n ∈ names ↔ ∃ c, contract n st = Return c).
Proof.
  intros Hflag. exists (map_iter (m_contracts st)).*1. unfold contractNames.
  rewrite Hflag. simpl. split_and!.
  - done.
  - apply map_iter_nodup_keys.
  - eapply Sorted_fmap; [|apply map_iter_sorted]. done.
  - intros n Hn. rewrite list_elem_of_fmap. split.
    + intros ([k c] & -> & Hel). exists c. apply contract_named; [done|].
      by apply elem_of_map_iter.
    + intros [c Hc]. apply contract_named in Hc; [|done].
      exists (n, c). split; [done|]. by apply elem_of_map_iter.
Qed.

Lemma contractNames_lookup_witness :
  ∃ names, contractNames two_contract_stack = Return names ∧ NoDup names ∧
    Sorted (λ a b, String.leb a b = true) names ∧
    ∀ n, n ≠ EmptyString →
      (n ∈ names ↔ ∃ c, contract n two_contract_stack = Return c).
Proof. apply contractNames_lookup. reflexivity. Defined.

Lemma doc_slot_set_same (t : DocumentationType) (d : string) (c : Contract)
    (old : option string) :
  doc_slot t c = Return old → doc_slot t (set_doc_slot t d c) = Return (Some d).
Proof. by destruct t. Qed.

Lemma doc_slot_set_other (t t' : DocumentationType) (d : string) (c : Contract) :
  t' ≠ t → doc_slot t' (set_doc_slot t d c) = doc_slot t' c.
Proof. by destruct t, t'. Qed.

Lemma contract_entry_insert (n k : string) (st : CompilerStack) (c c' : Contract)
    (flag : bool) (order : list string) :
  contract_entry n st = Return (k, c) →
  contract_entry n (mkStack flag (m_sources st) order (<[k := c']> (m_contracts st)))
  = Return (k, c').
Proof.
  unfold contract_entry. simpl. case_bool_decide as He; [done|].
  rewrite (bool_decide_eq_false_2 (<[k:=c']> (m_contracts st) = ∅))
    by apply insert_non_empty.
  destruct (if bool_decide (n = EmptyString)
            then scan_sources (map_iter (m_sources st)) n else Return n)
    as [k'|e| |]; simpl; [|done..].
  destruct (m_contracts st !! k') as [r|] eqn:Hk; [|done].
  intros [= -> ->]. by rewrite lookup_insert_eq.
Qed.

(** X11: [metadata] caches: when a call returns a string, the state it
    leaves answers the same query with the same string without asking the
    interface handler again (whatever handler is passed) and without
    changing further.  The call leaves sources, order, flag and the keys of
    the contract table alone, and in the records only the one slot of the
    one contract can differ: every record keeps its definition, compiler,
    bytecode and other slots, every record but the one looked up is as it
    was, the slot of that one holds the string returned, and a slot that
    was filled before is not written at all. *)
Theorem metadata_cached
    (documentation : ContractDefinition → DocumentationType → Outcome string)
    (n : string) (t : DocumentationType) (st st' : CompilerStack) (d : string) :
  metadata documentation n t st = Return (d, st') →
  (∀ documentation', metadata documentation' n t st' = Return (d, st')) ∧
  m_sources st' = m_sources st ∧ m_sourceOrder st' = m_sourceOrder st ∧
  m_parseSuccessful st' = m_parseSuccessful st ∧
  dom (m_contracts st') = dom (m_contracts st) ∧
  (∀ k r, m_contracts st !! k = Some r →
    ∃ r', m_contracts st' !! k = Some r' ∧
      contract_ptr r' = contract_ptr r ∧ compiler r' = compiler r ∧
      object_ r' = object_ r ∧ runtimeObject_ r' = runtimeObject_ r ∧
      cloneObject_ r' = cloneObject_ r ∧
      ∀ t', t' ≠ t → doc_slot t' r' = doc_slot t' r) ∧
  ∃ k c c',
    contract_entry n st = Return (k, c) ∧
    m_contracts st !! k = Some c ∧ m_contracts st' !! k = Some c' ∧
    (∀ k', k' ≠ k → m_contracts st' !! k' = m_contracts st !! k') ∧
    doc_slot t c' = Return (Some d) ∧
    (∀ d0, doc_slot t c = Return (Some d0) → d0 = d ∧ st' = st).
Proof.
  unfold metadata. destruct (m_parseSuccessful st) eqn:Hflag; simpl; [|done].
  destruct (contract_entry n st) as [[k c]|e| |] eqn:He; simpl; [|done..].
  assert (Hk : m_contracts st !! k = Some c).
  { unfold contract_entry in He. case_bool_decide; [done|].
    destruct (if bool_decide (n = EmptyString)
              then scan_sources (map_iter (m_sources st)) n else Return n)
      as [k'|e| |]; simpl in He; [|done..].
    destruct (m_contracts st !! k') eqn:Hk'; by simplify_eq. }
  destruct (doc_slot t c) as [doc|e| |] eqn:Hdoc; simpl; [|done..].
  destruct doc as [d0|].
  { intros [= -> <-]. split_and!; try done.
    - intros documentation'. rewrite Hflag. simpl. rewrite He. simpl.
      by rewrite Hdoc.
    - intros k' r Hr. exists r. by split_and!.
    - exists k, c, c. split_and!; try done. intros d1 Heq.
      rewrite Hdoc in Heq. by injection Heq as <-. }
  destruct (contract_ptr c) as [cd|]; [|done].
  destruct (documentation cd t) as [d0|e| |]; simpl; [|done..].
  intros [= -> <-]. simpl.
  split_and!; try done.
  - intros documentation'.
    rewrite (contract_entry_insert n k st c (set_doc_slot t d c) true _ He). simpl.
    by rewrite (doc_slot_set_same t d c None Hdoc).
  - rewrite dom_insert_L. apply elem_of_dom_2 in Hk. set_solver.
  - intros k' r Hr. destruct (decide (k' = k)) as [->|Hne].
    + rewrite lookup_insert_eq. exists (set_doc_slot t d c).
      assert (r = c) as -> by congruence.
      split_and!; try done. intros t' Ht'. by apply doc_slot_set_other.
    + rewrite lookup_insert_ne by done. exists r. by split_and!.
  - exists k, c, (set_doc_slot t d c). split_and!; try done.
    + by rewrite lookup_insert_eq.
    + intros k' Hne. by rewrite lookup_insert_ne.
    + by apply (doc_slot_set_same t d c None).
    + intros d1 Heq. rewrite Hdoc in Heq. discriminate Heq.
Qed.

Lemma metadata_cached_witness :
  ∃ d st',
    metadata no_documentation "A" ABIInterface two_contract_stack = Return (d, st') ∧
    (∀ documentation', metadata documentation' "A" ABIInterface st' = Return (d, st')) ∧
    ∃ k c c',
      contract_entry "A" two_contract_stack = Return (k, c) ∧
      m_contracts two_contract_stack !! k = Some c ∧ m_contracts st' !! k = Some c' ∧
      (∀ k', k' ≠ k → m_contracts st' !! k' = m_contracts two_contract_stack !! k') ∧
      doc_slot ABIInterface c' = Return (Some d) ∧
      (∀ d0, doc_slot ABIInterface c = Return (Some d0) → d0 = d ∧ st' = two_contract_stack).
Proof.
  eexists _, _. split; [vm_compute; reflexivity|].
  destruct (metadata_cached no_documentation "A" ABIInterface two_contract_stack _ _
              ltac:(vm_compute; reflexivity)) as (Hagain & _ & _ & _ & _ & _ & Hone).
  split; [exact Hagain|exact Hone].
Defined.

(** ** Function entry points *)

Lemma find_tag_none (items : list AssemblyItem) (data : Z) :
  ∀ i0, (∀ item, item ∈ items → ¬ (item_type item = Tag ∧ item_data item = data)) →
        find_tag items data i0 = 0%nat.
Proof.
  induction items as [|item items IH]; intros i0 Hnone; simpl; [done|].
  destruct (bool_decide (item_type item = Tag) && bool_decide (item_data item = data))
    eqn:Hm.
  - exfalso. apply andb_true_iff in Hm as [H1%bool_decide_eq_true H2%bool_decide_eq_true].
    apply (Hnone item); [apply list_elem_of_here|done].
  - apply IH. intros it Hel. apply Hnone. by apply list_elem_of_further.
Qed.

Lemma find_tag_first (items : list AssemblyItem) (data : Z) :
  ∀ i0,
    (∃ item, item ∈ items ∧ item_type item = Tag ∧ item_data item = data) →
    ∃ j item, find_tag items data i0 = (i0 + j)%nat ∧ items !! j = Some item ∧
      item_type item = Tag ∧ item_data item = data ∧
      ∀ j' item', (j' < j)%nat → items !! j' = Some item' →
        ¬ (item_type item' = Tag ∧ item_data item' = data).
Proof.
  induction items as [|item items IH]; intros i0 (it & Hel & Ht & Hd).
  { by apply elem_of_nil in Hel. }
  simpl.
  destruct (bool_decide (item_type item = Tag) && bool_decide (item_data item = data))
    eqn:Hm.
  - apply andb_true_iff in Hm as [H1%bool_decide_eq_true H2%bool_decide_eq_true].
    exists 0%nat, item. split_and!; [lia|done..|]. intros j' item' Hlt. lia.
  - apply elem_of_cons in Hel as [->|Hel].
    { rewrite !bool_decide_eq_true_2 in Hm by done. done. }
    destruct (IH (S i0)) as (j & item1 & Hfind & Hj & Ht1 & Hd1 & Hfirst).
    { by exists it. }
    exists (S j), item1. split_and!; [lia|done..|].
    intros [|j'] item' Hlt Hj'; simpl in Hj'.
    + injection Hj' as <-. intros [H1 H2].
      rewrite !bool_decide_eq_true_2 in Hm by done. done.
    + apply (Hfirst j' item'); [lia|done].
Qed.

(** X12: [functionEntryPoint] returns 0 for a contract without compiler
    and for a function whose entry label is undefined; otherwise it
    returns the index of the first runtime item that is a tag with the
    data of the label, and 0 when no item is.  (So 0 stands both for no
    entry point and for a tag at index 0.) *)
Theorem functionEntryPoint_first_tag (runtimeItems : Compiler → list AssemblyItem)
    (F : Type) (label : Compiler → F → AssemblyItem)
    (name : string) (f : F) (st : CompilerStack) (c : Contract) :
  contract name st = Return c →
  (compiler c = None →
     functionEntryPoint runtimeItems F label name f st = Return 0%nat) ∧
  (∀ comp, compiler c = Some comp →
     let tag := label comp f in
     let entry item := item_type item = Tag ∧ item_data item = item_data tag in
     (item_type tag = UndefinedItem →
        functionEntryPoint runtimeItems F label name f st = Return 0%nat) ∧
     (item_type tag ≠ UndefinedItem →
        ∃ i, functionEntryPoint runtimeItems F label name f st = Return i ∧
          ((∃ item, item ∈ runtimeItems comp ∧ entry item) →
             ∃ item, runtimeItems comp !! i = Some item ∧ entry item ∧
               ∀ j item', (j < i)%nat → runtimeItems comp !! j = Some item' →
                          ¬ entry item') ∧
          ((∀ item, item ∈ runtimeItems comp → ¬ entry item) → i = 0%nat))).
Proof.
  intros Hc. unfold functionEntryPoint. rewrite Hc. simpl. split.
  { by intros ->. }
  intros comp ->. split.
  { intros Hu. by rewrite bool_decide_eq_true_2. }
  intros Hu. rewrite bool_decide_eq_false_2 by done.
  eexists. split; [reflexivity|]. split.
  - intros Hex.
    destruct (find_tag_first (runtimeItems comp) (item_data (label comp f)) 0 Hex)
      as (j & item & -> & Hj & Ht & Hd & Hfirst).
    exists item. by split_and!.
  - intros Hnone. by apply find_tag_none.
Qed.

Lemma functionEntryPoint_first_tag_witness :
  functionEntryPoint sample_items Z sample_label "C" 7 compiled_stack = Return 2%nat ∧
  functionEntryPoint sample_items Z sample_label "C" 5 compiled_stack = Return 1%nat ∧
  functionEntryPoint sample_items Z sample_label "C" (-1) compiled_stack = Return 0%nat.
Proof.
  assert (Hc : contract "C" compiled_stack
               = Return (mkContract (Some (mkContractDefinition 1 "C" true))
                           (Some (mkCompiler 1)) (mkLinkerObject [96; 1] ∅)
                           (mkLinkerObject [96; 2] ∅) (mkLinkerObject [96; 3] ∅)
                           None None None None)) by (vm_compute; reflexivity).
  pose proof (functionEntryPoint_first_tag sample_items Z sample_label "C") as H.
  split_and!.
  - destruct (H 7 compiled_stack _ Hc) as [_ H7].
    destruct (H7 (mkCompiler 1) eq_refl) as [_ Hdef].
    destruct Hdef as (i & Hi & _); [done|]. rewrite Hi. vm_compute in Hi.
    congruence.
  - destruct (H 5 compiled_stack _ Hc) as [_ H5].
    destruct (H5 (mkCompiler 1) eq_refl) as [_ Hdef].
    destruct Hdef as (i & Hi & _); [done|]. rewrite Hi. vm_compute in Hi.
    congruence.
  - destruct (H (-1) compiled_stack _ Hc) as [_ Hm].
    destruct (Hm (mkCompiler 1) eq_refl) as [Hundef _]. by apply Hundef.
Defined.

(** ** What [parse] leaves behind *)

Section ParseState.

Variable Resolver : Type.
Variable Parser_parse : Scanner → Outcome SourceUnit.
Variable newResolver : Resolver.
Variable registerDeclarations : Resolver → SourceUnit → Outcome Resolver.
Variable resolveNamesAndTypes : Resolver → ContractDefinition → Outcome Resolver.
Variable checkTypeRequirements : Resolver → ContractDefinition → Outcome Resolver.

Abbreviation run_parse :=
  (parse Resolver Parser_parse newResolver registerDeclarations
     resolveNamesAndTypes checkTypeRequirements).

(** The stages of [parse], one after the other. *)
Lemma parse_stages (st : CompilerStack) :
  let srcs := (parse_sources Parser_parse (map_iter (m_sources st)) (m_sources st)).1 in
  ∀ keep : CompilerStack → Prop,
    (∀ order cs, keep (mkStack (m_parseSuccessful st) srcs order cs)) →
    match run_parse st with
    | (st', Return _) => m_parseSuccessful st' = true ∧ m_sources st' = srcs
    | (st', _) => keep st'
    end.
Proof.
  intros srcs keep Hkeep. unfold parse. subst srcs.
  destruct (parse_sources Parser_parse (map_iter (m_sources st)) (m_sources st))
    as [srcs o1]. simpl in Hkeep.
  destruct o1 as [[]|e| |]; simpl; try apply Hkeep.
  unfold resolveImports. simpl.
  destruct (sourceOrder_of srcs) as [order|e| |]; simpl; try apply Hkeep.
  destruct (units_in_order srcs order) as [units|]; [|apply Hkeep].
  destruct (nodes_in_order srcs order) as [nodes|]; [|apply Hkeep].
  destruct (register_units Resolver registerDeclarations units newResolver)
    as [r1|e| |]; simpl; try apply Hkeep.
  destruct (for_contracts Resolver resolveNamesAndTypes nodes r1 (m_contracts st))
    as [cs1 o2].
  destruct o2 as [r2|e| |]; simpl; try apply Hkeep.
  destruct (for_contracts Resolver checkTypeRequirements nodes r2 cs1) as [cs2 o3].
  destruct o3 as [r3|e| |]; simpl; try apply Hkeep. done.
Qed.

(** X13: [parse] sets the parse-successful flag exactly on the path that
    returns; if it ends in any other way the flag keeps its value, so after
    [addSource] and a failed [parse] the flag is false and [contractNames]
    raises CompilerError. *)
Theorem parse_flag (st : CompilerStack) :
  let r := run_parse st in
  (r.2 = Return tt → m_parseSuccessful r.1 = true) ∧
  (r.2 ≠ Return tt →
     m_parseSuccessful r.1 = m_parseSuccessful st ∧
     (m_parseSuccessful st = false →
        contractNames r.1 = Throw parsingNotSuccessful)).
Proof.
  simpl.
  pose proof (parse_stages st
    (λ st', m_parseSuccessful st' = m_parseSuccessful st) (λ _ _, eq_refl)) as H.
  destruct (run_parse st) as [st' o]. simpl.
  destruct o as [[]|e| |]; simpl in *.
  - split; [by intros _; apply H|done].
  - split; [done|]. intros _. split; [done|]. intros Hf. unfold contractNames.
    by rewrite H, Hf.
  - split; [done|]. intros _. split; [done|]. intros Hf. unfold contractNames.
    by rewrite H, Hf.
  - split; [done|]. intros _. split; [done|]. intros Hf. unfold contractNames.
    by rewrite H, Hf.
Qed.

Lemma parse_sources_keeps (l : list (string * Source)) :
  ∀ (m m' : gmap string Source) (o : Outcome unit),
    (∀ n s, (n, s) ∈ l →
       (λ s, (scanner s, isLibrary s)) <$> m !! n = Some (scanner s, isLibrary s)) →
    parse_sources Parser_parse l m = (m', o) →
    ∀ n, (λ s, (scanner s, isLibrary s)) <$> m' !! n
         = (λ s, (scanner s, isLibrary s)) <$> m !! n.
Proof.
  induction l as [|[k s] l IH]; intros m m' o Hl Hrun n; simpl in Hrun.
  { by injection Hrun as <- <-. }
  destruct (Parser_parse (Scanner_reset (scanner s))) as [u|e| |] eqn:Hu;
    try by injection Hrun as <- <-.
  assert (Hstep : ∀ n', (λ s, (scanner s, isLibrary s))
                          <$> <[k:=mkSource (Scanner_reset (scanner s)) (Some u) (isLibrary s)]> m !! n'
                        = (λ s, (scanner s, isLibrary s)) <$> m !! n').
  { intros n'. destruct (decide (n' = k)) as [->|Hne].
    - rewrite lookup_insert_eq. simpl. symmetry. apply (Hl k s), list_elem_of_here.
    - by rewrite lookup_insert_ne. }
  rewrite <- Hstep. eapply IH; [|exact Hrun].
  intros n' s' Hel. rewrite Hstep. apply Hl. by apply list_elem_of_further.
Qed.

(** X14: however [parse] ends, the source map has the names it had, and
    every source its scanner (text and name) and its library flag: [parse]
    replaces trees only. *)
Theorem parse_keeps_sources (st : CompilerStack) (n : string) :
  (λ s, (scanner s, isLibrary s)) <$> m_sources (run_parse st).1 !! n
  = (λ s, (scanner s, isLibrary s)) <$> m_sources st !! n.
Proof.
  pose proof (parse_stages st
    (λ st', m_sources st'
            = (parse_sources Parser_parse (map_iter (m_sources st)) (m_sources st)).1)
    (λ _ _, eq_refl)) as H.
  assert (Hsrcs : m_sources (run_parse st).1
            = (parse_sources Parser_parse (map_iter (m_sources st)) (m_sources st)).1).
  { destruct (run_parse st) as [st' o]. simpl.
    destruct o as [[]|e| |]; simpl in *; [apply H|done..]. }
  rewrite Hsrcs.
  destruct (parse_sources Parser_parse (map_iter (m_sources st)) (m_sources st))
    as [srcs o] eqn:Hrun. simpl.
  eapply parse_sources_keeps; [|exact Hrun].
  intros k s Hel. apply elem_of_map_iter in Hel. by rewrite Hel.
Qed.

End ParseState.

Section ParseResults.

Variable Resolver : Type.
Variable Parser_parse : Scanner → Outcome SourceUnit.
Variable newResolver : Resolver.
Variable registerDeclarations : Resolver → SourceUnit → Outcome Resolver.
Variable resolveNamesAndTypes : Resolver → ContractDefinition → Outcome Resolver.
Variable checkTypeRequirements : Resolver → ContractDefinition → Outcome Resolver.

Abbreviation run_parse' :=
  (parse Resolver Parser_parse newResolver registerDeclarations
     resolveNamesAndTypes checkTypeRequirements).

(** The stages a returning [parse] went through. *)
Lemma parse_inv (st st' : CompilerStack) :
  run_parse' st = (st', Return tt) →
  ∃ srcs order units nodes r1 cs1 r2 cs2 r3,
    parse_sources Parser_parse (map_iter (m_sources st)) (m_sources st)
      = (srcs, Return tt) ∧
    sourceOrder_of srcs = Return order ∧
    units_in_order srcs order = Some units ∧
    nodes_in_order srcs order = Some nodes ∧
    register_units Resolver registerDeclarations units newResolver = Return r1 ∧
    for_contracts Resolver resolveNamesAndTypes nodes r1 (m_contracts st)
      = (cs1, Return r2) ∧
    for_contracts Resolver checkTypeRequirements nodes r2 cs1 = (cs2, Return r3) ∧
    st' = mkStack true srcs order cs2.
Proof.
  unfold parse.
  destruct (parse_sources Parser_parse (map_iter (m_sources st)) (m_sources st))
    as [srcs o1] eqn:H1.
  destruct o1 as [[]|e| |]; simpl; [|done..].
  unfold resolveImports. simpl.
  destruct (sourceOrder_of srcs) as [order|e| |] eqn:H2; simpl; [|done..].
  destruct (units_in_order srcs order) as [units|] eqn:H3; [|done].
  destruct (nodes_in_order srcs order) as [nodes|] eqn:H4; [|done].
  destruct (register_units Resolver registerDeclarations units newResolver)
    as [r1|e| |] eqn:H5; simpl; [|done..].
  destruct (for_contracts Resolver resolveNamesAndTypes nodes r1 (m_contracts st))
    as [cs1 o2] eqn:H6.
  destruct o2 as [r2|e| |]; simpl; [|done..].
  destruct (for_contracts Resolver checkTypeRequirements nodes r2 cs1)
    as [cs2 o3] eqn:H7.
  destruct o3 as [r3|e| |]; simpl; [|done..].
  intros [= <-]. exists srcs, order, units, nodes, r1, cs1, r2, cs2, r3.
  by split_and!.
Qed.

Lemma elem_of_contract_names (nodes : list ASTNode) (n : string) :
  n ∈ contract_names_of nodes ↔ ∃ c, ContractDefinitionNode c ∈ nodes ∧ cd_name c = n.
Proof.
  unfold contract_names_of. rewrite list_elem_of_omap. split.
  - intros ([id loc|c|] & Hel & Hn); simplify_eq. by exists c.
  - intros (c & Hel & <-). by exists (ContractDefinitionNode c).
Qed.

Lemma for_contracts_dom (step : Resolver → ContractDefinition → Outcome Resolver)
    (nodes : list ASTNode) :
  ∀ r cs cs' r',
    for_contracts Resolver step nodes r cs = (cs', Return r') →
    dom cs' = dom cs ∪ list_to_set (contract_names_of nodes).
Proof.
  induction nodes as [|[id loc|c|] nodes IH]; intros r cs cs' r' Hrun; simpl in *.
  - injection Hrun as <- _. set_solver.
  - by eapply IH.
  - destruct (step r c) as [r1|e| |]; [|done..].
    rewrite (IH _ _ _ _ Hrun). unfold set_contract_ptr. rewrite dom_insert_L.
    set_solver.
  - by eapply IH.
Qed.

Lemma for_contracts_records (step : Resolver → ContractDefinition → Outcome Resolver)
    (all nodes : list ASTNode) :
  ∀ r cs cs' o,
    (∀ x, x ∈ nodes → x ∈ all) →
    (∀ n rec, cs !! n = Some rec →
       ∃ c, ContractDefinitionNode c ∈ all ∧ cd_name c = n ∧ rec = registered_record c) →
    for_contracts Resolver step nodes r cs = (cs', o) →
    ∀ n rec, cs' !! n = Some rec →
      ∃ c, ContractDefinitionNode c ∈ all ∧ cd_name c = n ∧ rec = registered_record c.
Proof.
  induction nodes as [|node nodes IH]; intros r cs cs' o Hsub Hcs Hrun; simpl in Hrun.
  { by injection Hrun as <- _. }
  assert (Hsub' : ∀ x, x ∈ nodes → x ∈ all).
  { intros x Hx. apply Hsub. by apply list_elem_of_further. }
  destruct node as [id loc|c|]; [by eapply IH| |by eapply IH].
  destruct (step r c) as [r1|e| |]; try by injection Hrun as <- _.
  eapply IH; [done| |exact Hrun].
  intros n rec. unfold set_contract_ptr.
  destruct (decide (n = cd_name c)) as [->|Hne].
  - rewrite lookup_insert_eq. intros [= <-]. exists c.
    split; [apply Hsub, list_elem_of_here|]. split; [done|].
    destruct (cs !! cd_name c) as [old|] eqn:Hold; simpl; [|done].
    by destruct (Hcs _ _ Hold) as (c0 & _ & _ & ->).
  - rewrite lookup_insert_ne by done. apply Hcs.
Qed.

(** The records a returning [parse] leaves in a table that was empty. *)
Lemma parse_registered (st st' : CompilerStack) :
  run_parse' st = (st', Return tt) →
  m_contracts st = ∅ →
  ∃ nodes,
    nodes_in_order (m_sources st') (m_sourceOrder st') = Some nodes ∧
    (∀ n, is_Some (m_contracts st' !! n) ↔
          ∃ c, ContractDefinitionNode c ∈ nodes ∧ cd_name c = n) ∧
    (∀ n rec, m_contracts st' !! n = Some rec →
       ∃ c, ContractDefinitionNode c ∈ nodes ∧ cd_name c = n ∧
            rec = registered_record c).
Proof.
  intros Hrun Hempty.
  destruct (parse_inv st st' Hrun)
    as (srcs & order & units & nodes & r1 & cs1 & r2 & cs2 & r3 &
        _ & _ & _ & Hnodes & _ & Hloop1 & Hloop2 & ->).
  exists nodes. simpl. rewrite Hempty in Hloop1.
  split_and!; [done| |].
  - intros n. rewrite <- elem_of_contract_names, <- elem_of_dom.
    rewrite (for_contracts_dom _ _ _ _ _ _ Hloop2), (for_contracts_dom _ _ _ _ _ _ Hloop1).
    set_solver.
  - eapply for_contracts_records; [done| |exact Hloop2].
    eapply for_contracts_records; [done| |exact Hloop1].
    intros n rec Hn. by rewrite lookup_empty in Hn.
Qed.

(** X15: a [parse] that returns, on a driver whose contract table was
    empty (as after [reset] or [addSource]), leaves a table whose names are
    exactly the names of the contract definitions in the listed sources;
    each record holds a definition of that name and nothing else yet (no
    compiler, empty bytecode, no cached documentation), so
    [contractDefinition] finds a definition of the name asked for. *)
Theorem parse_registers (st st' : CompilerStack) :
  run_parse' st = (st', Return tt) →
  m_contracts st = ∅ →
  ∃ nodes,
    nodes_in_order (m_sources st') (m_sourceOrder st') = Some nodes ∧
    (∀ n, is_Some (m_contracts st' !! n) ↔
          ∃ c, ContractDefinitionNode c ∈ nodes ∧ cd_name c = n) ∧
    (∀ n rec, m_contracts st' !! n = Some rec →
       ∃ c, ContractDefinitionNode c ∈ nodes ∧ cd_name c = n ∧
            rec = registered_record c) ∧
    (∀ n, n ≠ EmptyString → is_Some (m_contracts st' !! n) →
       ∃ c, contractDefinition n st' = Return c ∧ cd_name c = n).
Proof.
  intros Hrun Hempty.
  destruct (parse_registered st st' Hrun Hempty) as (nodes & Hnodes & Hnames & Hrecs).
  exists nodes. split_and!; [done..|].
  intros n Hn [rec Hrec]. destruct (Hrecs n rec Hrec) as (c & _ & Hname & ->).
  exists c. split; [|done]. unfold contractDefinition.
  assert (Hc : contract n st' = Return (registered_record c))
    by (by apply contract_named).
  by rewrite Hc.
Qed.

End ParseResults.

Lemma parse_registers_witness :
  ∃ nodes,
    nodes_in_order lib_user_sources ["Lib"; "User"] = Some nodes ∧
    ∀ n, is_Some (({[ "L" := registered_record (mkContractDefinition 1 "L" true);
                      "U" := registered_record (mkContractDefinition 2 "U" true) ]}
                   : gmap string Contract) !! n) ↔
         ∃ c, ContractDefinitionNode c ∈ nodes ∧ cd_name c = n.
Proof.
  destruct (parse_registers unit (table_parser lib_user_sources) tt accept accept accept
              (stack_of lib_user_sources)
              (mkStack true lib_user_sources ["Lib"; "User"]
                 {[ "L" := registered_record (mkContractDefinition 1 "L" true);
                    "U" := registered_record (mkContractDefinition 2 "U" true) ]}))
    as (nodes & Hnodes & Hnames & _).
  - vm_compute. reflexivity.
  - reflexivity.
  - exists nodes. split; [exact Hnodes|exact Hnames].
Defined.

Section ParseAgain.

Variable Resolver : Type.
Variable Parser_parse : Scanner → Outcome SourceUnit.
Variable newResolver : Resolver.
Variable registerDeclarations : Resolver → SourceUnit → Outcome Resolver.
Variable resolveNamesAndTypes : Resolver → ContractDefinition → Outcome Resolver.
Variable checkTypeRequirements : Resolver → ContractDefinition → Outcome Resolver.

Abbreviation run_parse'' :=
  (parse Resolver Parser_parse newResolver registerDeclarations
     resolveNamesAndTypes checkTypeRequirements).

(** X16: when the parser accepts every source and a source that a root
    reaches imports a name that is not in the map, [parse] raises
    ParserError Source-not-found before anything is registered: the
    contract table, the source order and the flag are as they were, and
    only the trees are new. *)
Theorem parse_missing_import (st : CompilerStack) (r A id : string)
    (loc : SourceLocation) :
  let srcs := (parse_sources Parser_parse (map_iter (m_sources st)) (m_sources st)).1 in
  (∀ n s, m_sources st !! n = Some s →
     ∃ u, Parser_parse (Scanner_reset (scanner s)) = Return u) →
  is_root srcs r → rtc (imports srcs) r A → has_import srcs A id loc →
  srcs !! id = None →
  ∃ loc',
    run_parse'' st
    = (mkStack (m_parseSuccessful st) srcs (m_sourceOrder st) (m_contracts st),
       Throw (ParserError loc' "Source not found.")).
Proof.
  intros srcs Hparser Hroot Hreach Himp Hnone. subst srcs.
  destruct (parse_sources_returns Parser_parse (map_iter (m_sources st)) (m_sources st))
    as [srcs Hsrcs].
  { intros n s Hel. apply (Hparser n). by apply elem_of_map_iter. }
  rewrite Hsrcs in *. simpl in *.
  pose proof (parse_sources_all_parsed _ _ _ Hsrcs) as Hall.
  pose proof (sourceOrder_of_spec srcs) as H. unfold parse. rewrite Hsrcs.
  unfold resolveImports. simpl.
  destruct (sourceOrder_of srcs) as [order|e| |]; simpl; [| |done..].
  - destruct H as (_ & _ & Hcl & Hroots & _).
    assert (HA : A ∈ order) by (eapply closed_reach; eauto).
    destruct (Hcl A id loc HA Himp) as [[s Hs] _]. congruence.
  - destruct H as (r' & _ & A' & id' & loc' & _ & _ & _ & ->). by exists loc'.
Qed.

Lemma parse_sources_reparsed (l : list (string * Source)) :
  ∀ (m m' : gmap string Source),
    parse_sources Parser_parse l m = (m', Return tt) →
    ∀ n s', m' !! n = Some s' →
      (∃ u, ast s' = Some u ∧ Parser_parse (Scanner_reset (scanner s')) = Return u)
      ∨ ((n ∉ l.*1) ∧ m !! n = Some s').
Proof.
  induction l as [|[k s] l IH]; intros m m' Hrun n s' Hn; simpl in Hrun.
  { injection Hrun as <-. right. split; [|done]. apply not_elem_of_nil. }
  destruct (Parser_parse (Scanner_reset (scanner s))) as [u|e| |] eqn:Hu;
    [|done..].
  destruct (IH _ _ Hrun n s' Hn) as [Hp|[Hnl Hm]]; [by left|].
  destruct (decide (n = k)) as [->|Hne].
  - rewrite lookup_insert_eq in Hm. injection Hm as <-. left. by exists u.
  - rewrite lookup_insert_ne in Hm by done. right. split; [|done].
    simpl. rewrite not_elem_of_cons. done.
Qed.

(** Parsing sources that hold the trees of their own texts changes nothing. *)
Lemma parse_sources_fixed (l : list (string * Source)) (m : gmap string Source) :
  (∀ n s, (n, s) ∈ l →
     m !! n = Some s ∧
     ∃ u, ast s = Some u ∧ Parser_parse (Scanner_reset (scanner s)) = Return u) →
  parse_sources Parser_parse l m = (m, Return tt).
Proof.
  induction l as [|[k s] l IH]; intros Hl; simpl; [done|].
  destruct (Hl k s) as (Hk & u & Hast & Hu); [apply list_elem_of_here|].
  rewrite Hu.
  assert (Hsame : mkSource (Scanner_reset (scanner s)) (Some u) (isLibrary s) = s).
  { destruct s as [sc tree lib]. simpl in *. by subst tree. }
  rewrite Hsame, (insert_id m k s Hk). apply IH.
  intros n s' Hel. apply Hl. by apply list_elem_of_further.
Qed.

(** X17: after a [parse] that returned on a driver without contracts,
    [reset] with [keepSources] followed by [parse] gives the state of the
    first [parse] again: the same trees, the same order, the same table. *)
Theorem parse_again_after_reset (st st' : CompilerStack) (std : bool) :
  run_parse'' st = (st', Return tt) →
  m_contracts st = ∅ →
  run_parse'' (reset true std st') = (st', Return tt).
Proof.
  intros Hrun Hempty.
  destruct (parse_inv _ _ _ _ _ _ st st' Hrun)
    as (srcs & order & units & nodes & r1 & cs1 & r2 & cs2 & r3 &
        H1 & H2 & H3 & H4 & H5 & H6 & H7 & ->).
  rewrite Hempty in H6. unfold reset, parse. simpl. rewrite reset_sources_id.
  rewrite (parse_sources_fixed (map_iter srcs) srcs).
  - unfold resolveImports. simpl. rewrite H2. simpl. rewrite H3, H4, H5. simpl.
    rewrite H6. simpl. by rewrite H7.
  - intros n s Hel. apply elem_of_map_iter in Hel. split; [done|].
    destruct (parse_sources_reparsed _ _ _ H1 n s Hel) as [Hp|[Hnl Hm]]; [done|].
    exfalso. apply Hnl. apply list_elem_of_fmap. exists (n, s). split; [done|].
    by apply elem_of_map_iter.
Qed.

End ParseAgain.

Lemma parse_missing_import_witness :
  ∃ loc',
    parse unit import_parser tt accept accept accept missing_stack
    = (mkStack false
         (parse_sources import_parser (map_iter (m_sources missing_stack))
            (m_sources missing_stack)).1 [] ∅,
       Throw (ParserError loc' "Source not found.")).
Proof.
  apply (parse_missing_import unit import_parser tt accept accept accept
           missing_stack "A" "A" "Nope" (mkLoc 0 0 "A")).
  - intros n s _. by eexists.
  - eexists. split; [by vm_compute|reflexivity].
  - apply rtc_refl.
  - eexists _, _. split_and!; [by vm_compute|reflexivity|apply list_elem_of_here].
  - by vm_compute.
Defined.

Lemma parse_again_after_reset_witness :
  parse unit sample_parser tt accept accept accept
    (reset true false (mkStack true cyclic_sources ["B"; "A"] ∅))
  = (mkStack true cyclic_sources ["B"; "A"] ∅, Return tt).
Proof.
  apply (parse_again_after_reset unit sample_parser tt accept accept accept cyclic_stack).
  - vm_compute. reflexivity.
  - reflexivity.
Defined.

(** ** Compilation *)

Section CompileLoop.

Variable compileContract :
  bool → N → ContractDefinition → CompiledContracts → Outcome Compiler.
Variable compileClone :
  bool → N → ContractDefinition → CompiledContracts → Outcome Compiler.
Variable assembledObject : Compiler → LinkerObject.
Variable compiler_runtimeObject : Compiler → LinkerObject.

Abbreviation run_contracts :=
  (compile_contracts compileContract compileClone assembledObject compiler_runtimeObject).

(** One induction for whatever each step of the loop keeps: [keeps cs cs']
    holds across the loop if it is a preorder that each update of one
    existing record respects. *)
Lemma compile_contracts_keeps (keeps : gmap string Contract → gmap string Contract → Prop)
    (optimize : bool) (runs : N) :
  (∀ cs, keeps cs cs) →
  (∀ cs1 cs2 cs3, keeps cs1 cs2 → keeps cs2 cs3 → keeps cs1 cs3) →
  (∀ cs n r comp clone,
     cs !! n = Some r →
     keeps cs (<[n := mkContract (contract_ptr r) (Some comp) (assembledObject comp)
                    (compiler_runtimeObject comp) clone (interface_ r)
                    (solidityInterface_ r) (userDocumentation r) (devDocumentation r)]> cs)) →
  ∀ nodes compiled cs cs' o,
    run_contracts optimize runs nodes compiled cs = (cs', o) → keeps cs cs'.
Proof.
  intros Hrefl Htrans Hstep nodes.
  induction nodes as [|node nodes IH]; intros compiled cs cs' o Hrun; simpl in Hrun.
  { injection Hrun as <- _. apply Hrefl. }
  destruct node as [id loc|c|]; [by eapply IH| |by eapply IH].
  destruct (cd_isFullyImplemented c); simpl in Hrun; [|by eapply IH].
  destruct (compileContract optimize runs c compiled) as [comp|e| |];
    try (injection Hrun as <- _; apply Hrefl).
  destruct (cs !! cd_name c) as [r|] eqn:Hr;
    [|injection Hrun as <- _; apply Hrefl].
  destruct (compileClone optimize runs c (compiled_set (contract_ptr r) comp compiled))
    as [clone|e| |];
    try (injection Hrun as <- _; by apply Hstep).
  eapply Htrans; [|eapply IH; exact Hrun]. by apply Hstep.
Qed.

Lemma compile_contracts_table (optimize : bool) (runs : N) (nodes : list ASTNode)
    (compiled : CompiledContracts) (cs cs' : gmap string Contract) (o : Outcome unit) :
  run_contracts optimize runs nodes compiled cs = (cs', o) →
  dom cs' = dom cs ∧
  (∀ n r, cs !! n = Some r → ∃ r', cs' !! n = Some r' ∧ same_registration r r' ∧
                                   (is_Some (compiler r) → is_Some (compiler r'))) ∧
  ((∀ n r, cs !! n = Some r → record_consistent assembledObject compiler_runtimeObject r) →
   ∀ n r', cs' !! n = Some r' → record_consistent assembledObject compiler_runtimeObject r').
Proof.
  revert nodes compiled cs cs' o.
  apply (compile_contracts_keeps (λ cs cs',
    dom cs' = dom cs ∧
    (∀ n r, cs !! n = Some r → ∃ r', cs' !! n = Some r' ∧ same_registration r r' ∧
                                     (is_Some (compiler r) → is_Some (compiler r'))) ∧
    ((∀ n r, cs !! n = Some r → record_consistent assembledObject compiler_runtimeObject r) →
     ∀ n r', cs' !! n = Some r' → record_consistent assembledObject compiler_runtimeObject r'))).
  - intros cs. split_and!; [done| |done]. intros n r Hr. exists r. by split_and!.
  - intros cs1 cs2 cs3 (Hd1 & Hr1 & Hc1) (Hd2 & Hr2 & Hc2). split_and!.
    + congruence.
    + intros n r Hr. destruct (Hr1 n r Hr) as (r' & Hr' & (?&?&?&?&?) & Hcomp1).
      destruct (Hr2 n r' Hr') as (r'' & Hr'' & (?&?&?&?&?) & Hcomp2).
      exists r''. split; [done|]. split; [|by auto].
      unfold same_registration. split_and!; congruence.
    + intros Hcons. apply Hc2, Hc1, Hcons.
  - intros cs n r comp clone Hr. split_and!.
    + rewrite dom_insert_L. apply elem_of_dom_2 in Hr. set_solver.
    + intros n' r0 Hr0. destruct (decide (n' = n)) as [->|Hne].
      * rewrite lookup_insert_eq. eexists. split; [done|].
        assert (r0 = r) as -> by congruence. split; [by split_and!|]. by eexists.
      * rewrite lookup_insert_ne by done. exists r0. by split_and!.
    + intros Hcons n' r'. destruct (decide (n' = n)) as [->|Hne].
      * rewrite lookup_insert_eq. intros [= <-] comp'. simpl. by intros [= <-].
      * rewrite lookup_insert_ne by done. apply Hcons.
Qed.


Lemma compile_contracts_untouched (optimize : bool) (runs : N) (n : string)
    (nodes : list ASTNode) :
  ∀ compiled cs cs' o,
    (∀ c, ContractDefinitionNode c ∈ nodes → cd_name c = n →
          cd_isFullyImplemented c = false) →
    run_contracts optimize runs nodes compiled cs = (cs', o) →
    cs' !! n = cs !! n.
Proof.
  induction nodes as [|node nodes IH]; intros compiled cs cs' o Habs Hrun;
    simpl in Hrun.
  { by injection Hrun as <- _. }
  assert (Habs' : ∀ c, ContractDefinitionNode c ∈ nodes → cd_name c = n →
                       cd_isFullyImplemented c = false).
  { intros c Hel. apply Habs. by apply list_elem_of_further. }
  destruct node as [id loc|c|]; [by eapply IH| |by eapply IH].
  destruct (cd_isFullyImplemented c) eqn:Hfull; simpl in Hrun; [|by eapply IH].
  assert (Hne : cd_name c ≠ n).
  { intros Hn. specialize (Habs c (list_elem_of_here _ _) Hn). congruence. }
  destruct (compileContract optimize runs c compiled) as [comp|e| |];
    try by injection Hrun as <- _.
  destruct (cs !! cd_name c) as [r|]; [|by injection Hrun as <- _].
  destruct (compileClone optimize runs c (compiled_set (contract_ptr r) comp compiled))
    as [clone|e| |].
  - rewrite (IH _ _ _ _ Habs' Hrun). by rewrite lookup_insert_ne.
  - injection Hrun as <- _. by rewrite lookup_insert_ne.
  - injection Hrun as <- _. by rewrite lookup_insert_ne.
  - injection Hrun as <- _. by rewrite lookup_insert_ne.
Qed.

End CompileLoop.

Section CompileProperties.

Variable Resolver : Type.
Variable Parser_parse : Scanner → Outcome SourceUnit.
Variable newResolver : Resolver.
Variable registerDeclarations : Resolver → SourceUnit → Outcome Resolver.
Variable resolveNamesAndTypes : Resolver → ContractDefinition → Outcome Resolver.
Variable checkTypeRequirements : Resolver → ContractDefinition → Outcome Resolver.
Variable compileContract :
  bool → N → ContractDefinition → CompiledContracts → Outcome Compiler.
Variable compileClone :
  bool → N → ContractDefinition → CompiledContracts → Outcome Compiler.
Variable assembledObject : Compiler → LinkerObject.
Variable compiler_runtimeObject : Compiler → LinkerObject.

Abbreviation run_compile :=
  (compile Resolver Parser_parse newResolver registerDeclarations resolveNamesAndTypes
     checkTypeRequirements compileContract compileClone assembledObject
     compiler_runtimeObject).

(** X18: [compile] on a parsed driver does not parse again and neither
    adds nor removes a contract: however it ends, the flag, the sources,
    the order and the names of the contract table are as before, and every
    record keeps its definition and its cached documentation; and if every
    record with a compiler held the bytecode of that compiler before, so
    it is after. *)
Theorem compile_keeps_table (optimize : bool) (runs : N) (st : CompilerStack) :
  m_parseSuccessful st = true →
  let st' := (run_compile optimize runs st).1 in
  m_parseSuccessful st' = true ∧ m_sources st' = m_sources st ∧
  m_sourceOrder st' = m_sourceOrder st ∧
  dom (m_contracts st') = dom (m_contracts st) ∧
  (∀ n r, m_contracts st !! n = Some r →
     ∃ r', m_contracts st' !! n = Some r' ∧ same_registration r r') ∧
  ((∀ n r, m_contracts st !! n = Some r →
      record_consistent assembledObject compiler_runtimeObject r) →
   ∀ n r', m_contracts st' !! n = Some r' →
      record_consistent assembledObject compiler_runtimeObject r').
Proof.
  intros Hflag. unfold compile. rewrite Hflag.
  destruct (nodes_in_order (m_sources st) (m_sourceOrder st)) as [nodes|]; simpl.
  2:{ split_and!; try done. intros n r Hr. exists r. by split_and!. }
  destruct (compile_contracts compileContract compileClone assembledObject
              compiler_runtimeObject optimize runs nodes [] (m_contracts st))
    as [cs o] eqn:Hrun.
  simpl. edestruct compile_contracts_table as (Hd & Hr & Hc); [exact Hrun|].
  split_and!; try done.
  intros n r Hn. destruct (Hr n r Hn) as (r' & Hr' & Hsame & _). by exists r'.
Qed.

End CompileProperties.

Section CompileFresh.

Variable Resolver : Type.
Variable Parser_parse : Scanner → Outcome SourceUnit.
Variable newResolver : Resolver.
Variable registerDeclarations : Resolver → SourceUnit → Outcome Resolver.
Variable resolveNamesAndTypes : Resolver → ContractDefinition → Outcome Resolver.
Variable checkTypeRequirements : Resolver → ContractDefinition → Outcome Resolver.
Variable compileContract :
  bool → N → ContractDefinition → CompiledContracts → Outcome Compiler.
Variable compileClone :
  bool → N → ContractDefinition → CompiledContracts → Outcome Compiler.
Variable assembledObject : Compiler → LinkerObject.
Variable compiler_runtimeObject : Compiler → LinkerObject.

Abbreviation run_compile' :=
  (compile Resolver Parser_parse newResolver registerDeclarations resolveNamesAndTypes
     checkTypeRequirements compileContract compileClone assembledObject
     compiler_runtimeObject).

(** The stages of a [compile] that had to parse first and returned. *)
Lemma compile_inv (optimize : bool) (runs : N) (st st' : CompilerStack) :
  m_parseSuccessful st = false →
  run_compile' optimize runs st = (st', Return tt) →
  ∃ st1 nodes cs,
    parse Resolver Parser_parse newResolver registerDeclarations resolveNamesAndTypes
      checkTypeRequirements st = (st1, Return tt) ∧
    nodes_in_order (m_sources st1) (m_sourceOrder st1) = Some nodes ∧
    compile_contracts compileContract compileClone assembledObject
      compiler_runtimeObject optimize runs nodes [] (m_contracts st1) = (cs, Return tt) ∧
    st' = mkStack (m_parseSuccessful st1) (m_sources st1) (m_sourceOrder st1) cs.
Proof.
  intros Hflag. unfold compile. rewrite Hflag.
  destruct (parse Resolver Parser_parse newResolver registerDeclarations
              resolveNamesAndTypes checkTypeRequirements st) as [st1 o1] eqn:Hparse.
  destruct o1 as [[]|e| |]; simpl; [|done..].
  destruct (nodes_in_order (m_sources st1) (m_sourceOrder st1)) as [nodes|] eqn:Hnodes;
    [|done].
  destruct (compile_contracts compileContract compileClone assembledObject
              compiler_runtimeObject optimize runs nodes [] (m_contracts st1))
    as [cs o2] eqn:Hrun.
  intros [= <- ->]. by exists st1, nodes, cs.
Qed.


(** X20: on such a driver, a contract name all of whose definitions in
    the listed sources are not fully implemented is skipped by [compile]:
    its three bytecode objects stay empty, [contractCodeHash] is the zero
    hash whatever the hash function, [assemblyItems] is a null pointer and
    [functionEntryPoint] is 0. *)
Theorem compile_fresh_abstract (optimize : bool) (runs : N)
    (st st' : CompilerStack) (n : string) :
  m_parseSuccessful st = false → m_contracts st = ∅ →
  run_compile' optimize runs st = (st', Return tt) →
  n ≠ EmptyString →
  ∀ nodes, nodes_in_order (m_sources st') (m_sourceOrder st') = Some nodes →
    (∃ c, ContractDefinitionNode c ∈ nodes ∧ cd_name c = n) →
    (∀ c, ContractDefinitionNode c ∈ nodes → cd_name c = n →
          cd_isFullyImplemented c = false) →
    object n st' = Return emptyObject ∧
    runtimeObject n st' = Return emptyObject ∧
    cloneObject n st' = Return emptyObject ∧
    (∀ sha3, contractCodeHash sha3 n st' = Return h256_zero) ∧
    (∀ items_of, assemblyItems items_of n st' = Return None) ∧
    (∀ runtimeItems F label (f : F),
       functionEntryPoint runtimeItems F label n f st' = Return 0%nat).
Proof.
  intros Hflag Hempty Hrun Hn nodes Hnodes' Hdefined Habstract.
  destruct (compile_inv _ _ _ _ Hflag Hrun) as (st1 & nodes1 & cs & Hparse & Hnodes & Hloop & ->).
  simpl in Hnodes'. assert (nodes1 = nodes) as -> by congruence.
  edestruct parse_registered as (nodes2 & Hnodes2 & Hnames & Hrecs);
    [exact Hparse|exact Hempty|].
  assert (nodes2 = nodes) as -> by congruence.
  destruct (proj2 (Hnames n) Hdefined) as [r Hr].
  destruct (Hrecs n r Hr) as (c0 & _ & _ & ->).
  assert (Hc : contract n
                 (mkStack (m_parseSuccessful st1) (m_sources st1) (m_sourceOrder st1) cs)
               = Return (registered_record c0)).
  { apply contract_named; [done|]. simpl.
    erewrite compile_contracts_untouched; [exact Hr|exact Habstract|exact Hloop]. }
  unfold contractCodeHash, object, runtimeObject, cloneObject, assemblyItems,
    functionEntryPoint.
  rewrite Hc. simpl. by split_and!.
Qed.

End CompileFresh.

Lemma compile_fresh_sample :
  compile unit (table_parser abstract_sources) tt accept accept accept
    sample_compileContract sample_compileContract sample_assembledObject
    sample_runtimeObject false 200 (stack_of abstract_sources)
  = (mkStack true abstract_sources ["main"]
       {[ "I" := registered_record (mkContractDefinition 1 "I" false);
          "C" := mkContract (Some (mkContractDefinition 2 "C" true)) (Some (mkCompiler 2))
                   (mkLinkerObject [96; 2] ∅) (mkLinkerObject [2] ∅)
                   (mkLinkerObject [96; 2] ∅) None None None None ]},
     Return tt).
Proof. vm_compute. reflexivity. Defined.


Lemma compile_fresh_abstract_witness :
  contractCodeHash sample_hash "I"
    (mkStack true abstract_sources ["main"]
       {[ "I" := registered_record (mkContractDefinition 1 "I" false);
          "C" := mkContract (Some (mkContractDefinition 2 "C" true))
                   (Some (mkCompiler 2)) (mkLinkerObject [96; 2] ∅)
                   (mkLinkerObject [2] ∅) (mkLinkerObject [96; 2] ∅)
                   None None None None ]})
  = Return h256_zero.
Proof.
  destruct (compile_fresh_abstract unit (table_parser abstract_sources) tt accept
              accept accept sample_compileContract sample_compileContract
              sample_assembledObject sample_runtimeObject false 200
              (stack_of abstract_sources) _ "I" eq_refl eq_refl compile_fresh_sample)
    with (nodes := [ContractDefinitionNode (mkContractDefinition 1 "I" false);
                    ContractDefinitionNode (mkContractDefinition 2 "C" true)])
    as (_ & _ & _ & Hhash & _).
  - done.
  - vm_compute. reflexivity.
  - eexists. split; [apply list_elem_of_here|reflexivity].
  - intros c [[= ->]|Hel]%elem_of_cons Hname; [done|].
    apply list_elem_of_singleton in Hel. injection Hel as ->. discriminate Hname.
  - exact (Hhash sample_hash).
Defined.

(** X21: [compile(sourceCode, optimize)] is stateless: what it returns and
    the state it leaves do not depend on the driver it is called on, since
    [setSource] discards what the driver held. *)
Theorem compile_source_stateless (Resolver : Type)
    (Parser_parse : Scanner → Outcome SourceUnit) (newResolver : Resolver)
    (registerDeclarations : Resolver → SourceUnit → Outcome Resolver)
    (resolveNamesAndTypes checkTypeRequirements :
       Resolver → ContractDefinition → Outcome Resolver)
    (compileContract compileClone :
       bool → N → ContractDefinition → CompiledContracts → Outcome Compiler)
    (assembledObject compiler_runtimeObject : Compiler → LinkerObject)
    (default_runs : N) (default_std : bool)
    (sourceCode : string) (optimize : bool) (st1 st2 : CompilerStack) :
  compile_source Resolver Parser_parse newResolver registerDeclarations
    resolveNamesAndTypes checkTypeRequirements compileContract compileClone
    assembledObject compiler_runtimeObject default_runs default_std
    sourceCode optimize st1
  = compile_source Resolver Parser_parse newResolver registerDeclarations
      resolveNamesAndTypes checkTypeRequirements compileContract compileClone
      assembledObject compiler_runtimeObject default_runs default_std
      sourceCode optimize st2.
Proof.
  unfold compile_source, parse_source.
  by rewrite (setSource_with_any default_std sourceCode st1 st2).
Qed.

(** X22: after a [parse] that returned on a driver without contracts,
    [defaultContractName] is the name of the last contract that the
    user-supplied sources define, in the order of the source map, provided
    that contract is one of the listed sources. *)
Theorem defaultContractName_after_parse (Resolver : Type)
    (Parser_parse : Scanner → Outcome SourceUnit) (newResolver : Resolver)
    (registerDeclarations : Resolver → SourceUnit → Outcome Resolver)
    (resolveNamesAndTypes checkTypeRequirements :
       Resolver → ContractDefinition → Outcome Resolver)
    (st st' : CompilerStack) (names : list string) (c : string) :
  parse Resolver Parser_parse newResolver registerDeclarations
    resolveNamesAndTypes checkTypeRequirements st = (st', Return tt) →
  m_contracts st = ∅ →
  user_contracts (map_iter (m_sources st')) = Some names →
  last names = Some c →
  is_Some (m_contracts st' !! c) →
  defaultContractName st' = Return c.
Proof.
  intros Hparse Hempty Hnames Hlast [rec Hrec].
  edestruct parse_registered as (nodes & _ & _ & Hrecs);
    [exact Hparse|exact Hempty|].
  destruct (Hrecs c rec Hrec) as (c0 & _ & Hname & ->).
  unfold defaultContractName, contractDefinition, contract, contract_entry.
  rewrite bool_decide_eq_false_2 by (intros He; by rewrite He, lookup_empty in Hrec).
  rewrite bool_decide_eq_true_2 by done.
  rewrite (scan_sources_last _ names EmptyString Hnames), Hlast. simpl.
  rewrite Hrec. simpl. by rewrite Hname.
Qed.

Lemma defaultContractName_after_parse_witness :
  defaultContractName
    (mkStack true lib_user_sources ["Lib"; "User"]
       {[ "L" := registered_record (mkContractDefinition 1 "L" true);
          "U" := registered_record (mkContractDefinition 2 "U" true) ]})
  = Return "U".
Proof.
  apply (defaultContractName_after_parse unit (table_parser lib_user_sources) tt
           accept accept accept (stack_of lib_user_sources) _ ["L"; "U"]).
  - vm_compute. reflexivity.
  - reflexivity.
  - vm_compute. reflexivity.
  - reflexivity.
  - by vm_compute; eexists.
Defined.

(** ** The comparator of the function queue *)

(** X23: [AscendingFunctionIDCompare] is transitive on all pointers; a
    null pointer is below every function and no function is below a null
    pointer; on functions it is irreflexive and asymmetric, and two
    functions neither of which is below the other have the same ID. *)
Theorem AscendingFunctionIDCompare_order :
  (∀ a b c, IRGen.AscendingFunctionIDCompare a b = true →
            IRGen.AscendingFunctionIDCompare b c = true →
            IRGen.AscendingFunctionIDCompare a c = true) ∧
  (∀ f, IRGen.AscendingFunctionIDCompare None (Some f) = true ∧
        IRGen.AscendingFunctionIDCompare (Some f) None = false) ∧
  (∀ f, IRGen.AscendingFunctionIDCompare (Some f) (Some f) = false) ∧
  (∀ f g, IRGen.AscendingFunctionIDCompare (Some f) (Some g) = true →
          IRGen.AscendingFunctionIDCompare (Some g) (Some f) = false) ∧
  (∀ f g, IRGen.AscendingFunctionIDCompare (Some f) (Some g) = false →
          IRGen.AscendingFunctionIDCompare (Some g) (Some f) = false →
          IRGen.id f = IRGen.id g).
Proof.
  split_and!.
  - intros [a|] [b|] [c|]; simpl; try done. rewrite !Z.ltb_lt. lia.
  - done.
  - intros f. simpl. apply Z.ltb_irrefl.
  - intros f g. simpl. rewrite Z.ltb_lt, Z.ltb_ge. lia.
  - intros f g. simpl. rewrite !Z.ltb_ge. lia.
Qed.

Lemma compile_keeps_table_witness :
  let st' := (compile unit (table_parser abstract_sources) tt accept accept accept
                sample_compileContract sample_compileContract sample_assembledObject
                sample_runtimeObject true 200 compiled_stack).1 in
  m_parseSuccessful st' = true ∧ m_sources st' = m_sources compiled_stack ∧
  m_sourceOrder st' = m_sourceOrder compiled_stack ∧
  dom (m_contracts st') = dom (m_contracts compiled_stack).
Proof.
  destruct (compile_keeps_table unit (table_parser abstract_sources) tt accept accept
              accept sample_compileContract sample_compileContract
              sample_assembledObject sample_runtimeObject true 200 compiled_stack
              eq_refl) as (Hflag & Hsrcs & Horder & Hdom & _).
  by split_and!.
Defined.
